(** * BatchSnap: a shallow embedding of the batch JPEG-to-PDF pipeline

    The development follows the TypeScript sources:
    - [types.ts]: [ConversionStatus], [FileData], [ProcessingStats];
    - [utils/pdfConverter.ts]: [getImageDimensions], [convertImageToPDF],
      [createZipFromFiles];
    - [App.tsx]: the React state ([files], [stats], [isProcessing]) and the
      handlers [handleFilesAdded], [handleRemoveFile], [handleClearAll],
      [processQueue] (with its local [updateFileStatus] and [processFile])
      and [handleDownloadZip], and the conditions under which its buttons
      are shown;
    - [components/DropZone.tsx]: [isValidFile], [handleDrop],
      [handleFileInput];
    - [components/FileList.tsx]: the condition of the remove button.

    React state is modelled by explicit state passing: every functional
    updater [setX (prev => ...)] is applied to the current state in call
    order.  The asynchronous [processQueue] is a small-step machine whose
    program counter remembers at which [await] the function is suspended. *)

From Stdlib Require Import ZArith Strings.Byte Strings.Ascii Strings.String.
From stdpp Require Import base option list strings gmap.

Local Open Scope string_scope.

(** ** types.ts *)

Inductive ConversionStatus := IDLE | QUEUED | PROCESSING | COMPLETED | ERROR.

#[global] Instance ConversionStatus_eq_dec : EqDecision ConversionStatus.
Proof. solve_decision. Defined.

(** A browser [File]: a display name, a MIME type and its bytes. *)
Record File := mkFile {
  name : string;
  type : string;
  content : list byte
}.

(** ** The jsPDF calls made by the converter

    jsPDF is a third-party encoder.  Only the three calls of
    [convertImageToPDF] are modelled, and a document is kept as the
    structure these calls build rather than as serialized bytes:
    - [new jsPDF (options)] opens a document with one page whose size is
      [format], each side cut down to the largest side a PDF page may have
      (14400 pt, expressed in the unit of the document), and the two sides
      exchanged when they disagree with the requested orientation;
    - [addImage (data, 'JPEG', x, y, w, h, alias, compression)] places an
      image on the current page.  For JPEG data the encoder stores the given
      stream as the image resource (the source comment reads "For raw JPEG
      data, this simply embeds the stream"); it throws when it cannot read
      the stream as a JPEG, which the host decides ([jpegReadable]).  The
      placement is recorded as passed, which is what the encoder does for a
      positive [w] and [h]; a zero or negative size makes it derive the size
      from the image header instead, and data it recognises as another image
      format is encoded again rather than stored: neither is modelled, and
      the theorems below that speak of the placement or of the stored stream
      assume positive sizes and JPEG data;
    - [output ('blob')] returns the document. *)
Module jsPDF.

Inductive Orientation := Portrait | Landscape.

Inductive LengthUnit := Px | Pt | Mm.

Record Options := mkOptions {
  orientation : Orientation;
  unit : LengthUnit;
  format : Z * Z;
  hotfixes : list string
}.

Record Image := mkImage {
  stream : list byte;
  imageFormat : string;
  imgX : Z;
  imgY : Z;
  imgW : Z;
  imgH : Z;
  alias : option string;
  compression : string
}.

Record Page := mkPage {
  pageWidth : Z;
  pageHeight : Z;
  pageOrientation : Orientation;
  images : list Image
}.

Record Doc := mkDoc {
  docUnit : LengthUnit;
  docHotfixes : list string;
  pages : list Page
}.

(** A page side is at most 14400 pt.  One unit is 1 pt, 72/25.4 pt for
    millimetres, and for pixels 96/72 pt, or 72/96 pt under the hotfix
    [px_scaling]; the limit in units is 14400 divided by that factor. *)
Definition maxPageSide (u : LengthUnit) (fixes : list string) : Z :=
  match u with
  | Pt => 14400
  | Mm => 5080
  | Px => if decide ("px_scaling" ∈ fixes) then 19200 else 10800
  end.

(** The first page: each side is cut down to the limit, then a side pair
    that contradicts the orientation is swapped. *)
Definition firstPage (o : Orientation) (limit : Z) (fmt : Z * Z) : Page :=
  let '(w0, h0) := fmt in
  let w := Z.min limit w0 in
  let h := Z.min limit h0 in
  match o with
  | Landscape =>
      if (w <? h)%Z then mkPage h w Landscape [] else mkPage w h Landscape []
  | Portrait =>
      if (h <? w)%Z then mkPage h w Portrait [] else mkPage w h Portrait []
  end.

Definition new (opts : Options) : Doc :=
  mkDoc (unit opts) (hotfixes opts)
    [firstPage (orientation opts) (maxPageSide (unit opts) (hotfixes opts))
       (format opts)].

(** Images go to the current (last) page. *)
Fixpoint onLastPage (f : Page → Page) (ps : list Page) : list Page :=
  match ps with
  | [] => []
  | [p] => [f p]
  | p :: ps' => p :: onLastPage f ps'
  end.

Definition addImage (jpegReadable : list byte → bool) (d : Doc)
    (data : list byte) (fmt : string) (x y w h : Z)
    (al : option string) (comp : string) : option Doc :=
  if jpegReadable data then
    let img := mkImage data fmt x y w h al comp in
    Some (mkDoc (docUnit d) (docHotfixes d)
            (onLastPage
               (λ p, mkPage (pageWidth p) (pageHeight p) (pageOrientation p)
                       (images p ++ [img]))
               (pages d)))
  else None.

Definition output (d : Doc) : Doc := d.

(** The image streams a reader finds in a document, in page order. *)
Definition embeddedStreams (d : Doc) : list (list byte) :=
  concat (map (λ p, map stream (images p)) (pages d)).

End jsPDF.

(** A PDF [Blob] is the document it was produced from. *)
Definition Blob := jsPDF.Doc.

Record FileData := mkFileData {
  id : string;
  file : File;
  previewUrl : string;
  status : ConversionStatus;
  pdfBlob : option Blob;
  error : option string;
  width : option Z;
  height : option Z
}.

Record ProcessingStats := mkStats {
  total : nat;
  processed : nat;
  success : nat;
  failed : nat;
  startTime : option Z;
  endTime : option Z
}.

(** ** The JSZip calls made by the packager

    JSZip is a third-party archiver.  An archive is the finite map from
    entry paths to entries that its calls build:
    - [zip.folder (name)] adds the folder entry [name/] and returns a handle
      rooted there;
    - [folder.file (fileName, data)] stores [data] at [root ++ fileName],
      replacing an entry already stored at that path.
    Folder entries created for a [/] inside [fileName] are not modelled: the
    name of a browser [File] is a leaf name. *)
Module JSZip.

Inductive Entry := Folder | Document (data : Blob).

Abbreviation Zip := (gmap string Entry).

Definition new : Zip := ∅.

Definition folder (folderName : string) (zip : Zip) : Zip * string :=
  let root := folderName ++ "/" in
  (<[root := Folder]> zip, root).

Definition file (root fileName : string) (data : Blob) (zip : Zip) : Zip :=
  <[root ++ fileName := Document data]> zip.

End JSZip.

(** ** The host environment

    What the browser and the two third-party libraries decide:
    - [imageSize url]: loading [url] into an [Image] fires [onload] with
      (naturalWidth, naturalHeight), or [onerror] ([None]); this is a fixed
      function of the URL, that is, an object URL stays loadable for as long
      as a conversion may read it (the UI revokes URLs only through buttons
      it offers while no run is active);
    - [jpegReadable data]: jsPDF can read [data] as a JPEG stream;
    - [zipWritable zip]: JSZip's [generateAsync] resolves for this archive
      (it rejects otherwise). *)
Record Host := mkHost {
  imageSize : string → option (Z * Z);
  jpegReadable : list byte → bool;
  zipWritable : JSZip.Zip → bool
}.

(** ** utils/pdfConverter.ts *)

(** The two places where [convertImageToPDF] can throw: the rejected
    promise of [getImageDimensions], and [addImage]. *)
Inductive ConvError := ProbeError | EncodingError.

#[global] Instance ConvError_eq_dec : EqDecision ConvError.
Proof. solve_decision. Defined.

Section Converter.
Context (host : Host).

Definition getImageDimensions (url : string) : ConvError + (Z * Z) :=
  match imageSize host url with
  | Some wh => inr wh
  | None => inl ProbeError
  end.

(** [file.arrayBuffer()] followed by [new Uint8Array]. *)
Definition arrayBuffer (f : File) : list byte := content f.

(** The [catch] of the source logs and rethrows, so an error of either
    step is the error of the whole call. *)
Definition convertImageToPDF (fileData : FileData) : ConvError + Blob :=
  match getImageDimensions (previewUrl fileData) with
  | inl e => inl e
  | inr (w, h) =>
      let orientation := if (w >? h)%Z then jsPDF.Landscape else jsPDF.Portrait in
      let pdf := jsPDF.new (jsPDF.mkOptions orientation jsPDF.Px (w, h) ["px_scaling"]) in
      let uint8Array := arrayBuffer (file fileData) in
      match jsPDF.addImage (jpegReadable host) pdf uint8Array "JPEG" 0 0 w h None "FAST" with
      | Some pdf' => inr (jsPDF.output pdf')
      | None => inl EncodingError
      end
  end.

(** [name.replace (/\.[^/.]+$/, ...)]: the pattern matches at a dot that is
    followed, up to the end of the name, by one or more characters other
    than [/] and [.]; [replace] rewrites the leftmost match. *)
Fixpoint extensionChars (s : string) : bool :=
  match s with
  | EmptyString => true
  | String c rest =>
      negb (Ascii.eqb c "/"%char) && negb (Ascii.eqb c "."%char) && extensionChars rest
  end.

Definition matchesExtension (s : string) : bool :=
  match s with
  | EmptyString => false
  | String c rest => Ascii.eqb c "."%char && negb (String.eqb rest "") && extensionChars rest
  end.

Fixpoint replaceExtension (s : string) (by_ : string) : string :=
  match s with
  | EmptyString => EmptyString
  | String c rest =>
      if matchesExtension s then by_ else String c (replaceExtension rest by_)
  end.

Definition pdfName (f : FileData) : string :=
  replaceExtension (name (file f)) "" ++ ".pdf".

(** The [forEach] body of [createZipFromFiles]. *)
Definition addToFolder (root : string) (zip : JSZip.Zip) (f : FileData) : JSZip.Zip :=
  match pdfBlob f with
  | Some blob => JSZip.file root (pdfName f) blob zip
  | None => zip
  end.

Definition zipOfFiles (files : list FileData) : JSZip.Zip :=
  let '(zip, root) := JSZip.folder "converted_pdfs" JSZip.new in
  foldl (addToFolder root) zip files.

(** [zip.generateAsync] either resolves with the whole archive or
    rejects. *)
Definition createZipFromFiles (files : list FileData) : option JSZip.Zip :=
  let zip := zipOfFiles files in
  if zipWritable host zip then Some zip else None.

End Converter.

(** ** App.tsx *)

(** The [Partial<FileData>] objects passed to [updateFileStatus]; only these
    three keys are ever given. *)
Record Updates := mkUpdates {
  u_status : option ConversionStatus;
  u_pdfBlob : option Blob;
  u_error : option string
}.

(** [{ ...f, ...updates }]: a key present in [updates] overrides, every
    other field of [f] is kept. *)
Definition spread (f : FileData) (u : Updates) : FileData :=
  mkFileData (id f) (file f) (previewUrl f)
    (default (status f) (u_status u))
    (match u_pdfBlob u with Some b => Some b | None => pdfBlob f end)
    (match u_error u with Some e => Some e | None => error f end)
    (width f) (height f).

Definition updateFileStatus (i : string) (u : Updates) (files : list FileData)
    : list FileData :=
  map (λ f, if decide (id f = i) then spread f u else f) files.

Definition initialStats : ProcessingStats := mkStats 0 0 0 0 None None.

Definition BATCH_SIZE : nat := 5.

(** [queue.slice (a, b)] for [a ≤ b]. *)
Definition slice {A} (a b : nat) (l : list A) : list A := take (b - a) (drop a l).

(** Where the asynchronous [processQueue] is suspended:
    - [Stopped]: no run is active;
    - [Awaiting queue i pending]: at [await Promise.all (...)] of the batch
      starting at index [i]; [pending] are the members whose [processFile]
      has not settled yet;
    - [Sleeping queue i]: at [await new Promise (... setTimeout (resolve, 50))]
      after that batch. *)
Inductive Pc :=
  | Stopped
  | Awaiting (queue : list FileData) (i : nat) (pending : list FileData)
  | Sleeping (queue : list FileData) (i : nat).

Record App := mkApp {
  files : list FileData;
  stats : ProcessingStats;
  isProcessing : bool;
  pc : Pc
}.

Definition initialApp : App := mkApp [] initialStats false Stopped.

Inductive Event :=
  | FilesAdded (new : list (string * string * File))
      (**r [handleFilesAdded]; each file comes with the id drawn by
          [crypto.randomUUID] and the URL made by [URL.createObjectURL] *)
  | RemoveFile (i : string)     (**r [handleRemoveFile] *)
  | ClearAll                    (**r [handleClearAll] *)
  | ConvertAll (now : Z)        (**r click on "Convert All Images": [processQueue] *)
  | Settled (k : nat)           (**r the conversion of the [k]-th pending member settles *)
  | AllSettled                  (**r [Promise.all] resolves *)
  | TimerFired (now : Z).       (**r the 50 ms timer fires *)

Definition eligible (f : FileData) : Prop := status f = IDLE ∨ status f = ERROR.

#[global] Instance eligible_dec f : Decision (eligible f).
Proof. unfold eligible. apply _. Defined.

(** [f.status === IDLE ? { ...f, status: QUEUED } : f] *)
Definition markQueued (f : FileData) : FileData :=
  if decide (status f = IDLE) then spread f (mkUpdates (Some QUEUED) None None) else f.

Definition newFileData (x : string * string * File) : FileData :=
  let '(i, url, f) := x in mkFileData i f url IDLE None None None None.

(** Ids held by the store and by a run in progress. *)
Definition queueOf (p : Pc) : list FileData :=
  match p with
  | Stopped => []
  | Awaiting q _ _ => q
  | Sleeping q _ => q
  end.

Definition usedIds (s : App) : list string :=
  map id (files s) ++ map id (queueOf (pc s)).

(** [crypto.randomUUID] returns identifiers that are new and pairwise
    distinct. *)
Definition freshIds (s : App) (ids : list string) : Prop :=
  NoDup ids ∧ Forall (λ i, i ∉ usedIds s) ids.

#[global] Instance freshIds_dec s ids : Decision (freshIds s ids).
Proof. unfold freshIds. apply _. Defined.

Section Scheduler.
Context (host : Host).

(** [processFile] up to its first [await]. *)
Definition startFile (fs : list FileData) (f : FileData) : list FileData :=
  updateFileStatus (id f) (mkUpdates (Some PROCESSING) None None) fs.

(** [processFile] after [convertImageToPDF] has settled: the [try] branch
    or the [catch] branch. *)
Definition settleFile (f : FileData) (s : App) : App :=
  let st := stats s in
  match convertImageToPDF host f with
  | inr blob =>
      mkApp (updateFileStatus (id f) (mkUpdates (Some COMPLETED) (Some blob) None) (files s))
            (mkStats (total st) (processed st + 1) (success st + 1) (failed st)
                     (startTime st) (endTime st))
            (isProcessing s) (pc s)
  | inl _ =>
      mkApp (updateFileStatus (id f)
               (mkUpdates (Some ERROR) None (Some "Failed to convert")) (files s))
            (mkStats (total st) (processed st + 1) (success st) (failed st + 1)
                     (startTime st) (endTime st))
            (isProcessing s) (pc s)
  end.

(** The head of the [for] loop at index [i]: either the next batch is
    sliced off and every member is started, or the loop is left and the
    run ends. *)
Definition loopHead (now : Z) (queue : list FileData) (i : nat) (s : App) : App :=
  if decide (i < length queue) then
    let batch := slice i (i + BATCH_SIZE) queue in
    mkApp (foldl startFile (files s) batch) (stats s) (isProcessing s)
          (Awaiting queue i batch)
  else
    let st := stats s in
    mkApp (files s)
          (mkStats (total st) (processed st) (success st) (failed st)
                   (startTime st) (Some now))
          false Stopped.

(** [processQueue] up to its first [await]. *)
Definition processQueue (now : Z) (s : App) : App :=
  let snapshot := files s in
  let st := stats s in
  let st' := mkStats (length snapshot) 0 (success st) (failed st)
               (Some now) (endTime st) in
  let files' := map markQueued (files s) in
  let queue := filter eligible snapshot in
  loopHead now queue 0 (mkApp files' st' true (pc s)).

(** The derived values that decide which buttons are shown. *)
Definition hasFiles (s : App) : bool := bool_decide (0 < length (files s)).

Definition completedCount (s : App) : nat :=
  length (filter (λ f, status f = COMPLETED) (files s)).

Definition isAllCompleted (s : App) : bool :=
  hasFiles s && bool_decide (completedCount s = length (files s)).

(** One step of the application.  [None]: the event cannot happen in this
    state.  The convert and clear buttons are shown under the conditions
    of the source; adding and removing files is allowed at any time, which
    covers more than the buttons offer during a run. *)
Definition step (e : Event) (s : App) : option App :=
  match e with
  | FilesAdded new =>
      if decide (freshIds s (map (λ x, x.1.1) new)) then
        Some (mkApp (files s ++ map newFileData new) (stats s) (isProcessing s) (pc s))
      else None
  | RemoveFile i =>
      Some (mkApp (filter (λ f, id f ≠ i) (files s)) (stats s) (isProcessing s) (pc s))
  | ClearAll =>
      if hasFiles s && negb (isProcessing s) then
        Some (mkApp [] initialStats (isProcessing s) (pc s))
      else None
  | ConvertAll now =>
      match pc s with
      | Stopped =>
          if hasFiles s && negb (isProcessing s) && negb (isAllCompleted s)
          then Some (processQueue now s) else None
      | _ => None
      end
  | Settled k =>
      match pc s with
      | Awaiting q i pending =>
          match pending !! k with
          | Some f =>
              let s' := settleFile f s in
              Some (mkApp (files s') (stats s') (isProcessing s')
                          (Awaiting q i (delete k pending)))
          | None => None
          end
      | _ => None
      end
  | AllSettled =>
      match pc s with
      | Awaiting q i [] => Some (mkApp (files s) (stats s) (isProcessing s) (Sleeping q i))
      | _ => None
      end
  | TimerFired now =>
      match pc s with
      | Sleeping q i => Some (loopHead now q (i + BATCH_SIZE) s)
      | _ => None
      end
  end.

Fixpoint exec (evs : list Event) (s : App) : option App :=
  match evs with
  | [] => Some s
  | e :: evs' =>
      match step e s with
      | Some s' => exec evs' s'
      | None => None
      end
  end.

End Scheduler.

Section Download.
Context (host : Host).

(** What [handleDownloadZip] does: nothing, [saveAs (zipBlob, name)], or
    [alert (message)]. *)
Inductive DownloadOutcome :=
  | NoDownload
  | Saved (zipBlob : JSZip.Zip) (fileName : string)
  | Alerted (message : string).

Definition completedWithBlob (f : FileData) : Prop :=
  status f = COMPLETED ∧ is_Some (pdfBlob f).

#[global] Instance completedWithBlob_dec f : Decision (completedWithBlob f).
Proof. unfold completedWithBlob. apply _. Defined.

Definition handleDownloadZip (s : App) : DownloadOutcome :=
  let completedFiles := filter completedWithBlob (files s) in
  if decide (length completedFiles = 0) then NoDownload
  else
    match createZipFromFiles host completedFiles with
    | Some zipBlob => Saved zipBlob "converted_pdfs.zip"
    | None => Alerted "Failed to create ZIP file."
    end.

End Download.

(** ** Notions used by the statements *)

(** The batches that the [for] loop of [processQueue] slices off, from index
    [i] on.  The loop index grows by [BATCH_SIZE] per round, so
    [length queue - i] rounds are more than enough. *)
Fixpoint wavesFrom (fuel i : nat) (queue : list FileData) : list (list FileData) :=
  match fuel with
  | 0 => []
  | S fuel' =>
      if decide (i < length queue)
      then slice i (i + BATCH_SIZE) queue :: wavesFrom fuel' (i + BATCH_SIZE) queue
      else []
  end.

Definition waves (queue : list FileData) : list (list FileData) :=
  wavesFrom (length queue) 0 queue.

(** The queue members a suspended run has still to settle: the pending
    members of the current batch and every later batch. *)
Definition todo (p : Pc) : list FileData :=
  match p with
  | Stopped => []
  | Awaiting q i pending => pending ++ drop (i + BATCH_SIZE) q
  | Sleeping q i => drop (i + BATCH_SIZE) q
  end.

Definition succeeds (host : Host) (f : FileData) : bool :=
  match convertImageToPDF host f with
  | inr _ => true
  | inl _ => false
  end.

Definition countOk (host : Host) (l : list FileData) : nat :=
  length (filter (λ f, succeeds host f = true) l).

Definition countFailed (host : Host) (l : list FileData) : nat :=
  length (filter (λ f, succeeds host f = false) l).

(** The scheduler's own steps, without their parameters. *)
Inductive SchedStep := StepSettle | StepAllSettled | StepTimer.

Definition schedStep (e : Event) : option SchedStep :=
  match e with
  | Settled _ => Some StepSettle
  | AllSettled => Some StepAllSettled
  | TimerFired _ => Some StepTimer
  | _ => None
  end.

(** One wave: every member settles, [Promise.all] resolves, the timer
    fires. *)
Definition waveScript (w : list FileData) : list SchedStep :=
  replicate (length w) StepSettle ++ [StepAllSettled; StepTimer].

Definition runScript (ws : list (list FileData)) : list SchedStep :=
  concat (map waveScript ws).

(** What is left of the script at a suspension point. *)
Definition restScript (p : Pc) : list SchedStep :=
  match p with
  | Stopped => []
  | Awaiting q i pending =>
      replicate (length pending) StepSettle ++ [StepAllSettled; StepTimer]
        ++ runScript (wavesFrom (length q) (i + BATCH_SIZE) q)
  | Sleeping q i =>
      StepTimer :: runScript (wavesFrom (length q) (i + BATCH_SIZE) q)
  end.

(** A schedule that lets the members of every wave settle in queue order. *)
Definition waveEvents (now : Z) (w : list FileData) : list Event :=
  replicate (length w) (Settled 0) ++ [AllSettled; TimerFired now].

Definition inOrderSchedule (now : Z) (queue : list FileData) : list Event :=
  concat (map (waveEvents now) (waves queue)).

(** The events of a run in progress.  The convert and the clear button are
    offered only while no run is active. *)
Definition duringRun (e : Event) : Prop :=
  match e with
  | ConvertAll _ | ClearAll => False
  | _ => True
  end.

#[global] Instance duringRun_dec e : Decision (duringRun e).
Proof. destruct e; simpl; apply _. Defined.

(** A file as [handleFilesAdded] creates it. *)
Definition pristine (f : FileData) : Prop :=
  status f = IDLE ∧ pdfBlob f = None ∧ error f = None.

(** The store invariant carried through every step. *)
Record Inv (s : App) : Prop := mkInv {
  inv_ids : NoDup (map id (files s));
  inv_blob : ∀ f, f ∈ files s → is_Some (pdfBlob f) ↔ status f = COMPLETED;
  inv_error : ∀ f, f ∈ files s →
    (status f = ERROR → is_Some (error f)) ∧
    (status f = IDLE ∨ status f = QUEUED → error f = None);
  inv_todo_ids : NoDup (map id (todo (pc s)));
  inv_todo_open : ∀ f, f ∈ files s → id f ∈ map id (todo (pc s)) →
    status f ≠ COMPLETED
}.

(** ** Sample data *)

Module Sample.

(** A host that decodes the URLs starting with [blob:jpeg] as 640x480
    images, reads streams that begin with the JPEG start-of-image marker,
    and writes every archive. *)
Definition host : Host :=
  mkHost (λ url, if String.prefix "blob:jpeg" url then Some (640, 480)%Z else None)
         (λ data, match data with
                  | xff :: xd8 :: _ => true
                  | _ => false
                  end)
         (λ _, true).

(** The same host with an archiver that always rejects. *)
Definition hostNoZip : Host :=
  mkHost (imageSize host) (jpegReadable host) (λ _, false).


Definition jpegBytes : list byte := [xff; xd8; xff; xe0; x00; x10].

Definition digit (n : nat) : string :=
  String (Ascii.ascii_of_nat (48 + n / 10)) (String (Ascii.ascii_of_nat (48 + n mod 10)) "").

(** A well-formed JPEG, numbered [n]. *)
Definition jpeg (n : nat) : string * string * File :=
  ("id-" ++ digit n, "blob:jpeg-" ++ digit n,
   mkFile ("photo" ++ digit n ++ ".jpg") "image/jpeg" jpegBytes).

(** A file with a JPEG name that no image decoder accepts. *)
Definition corrupt : string * string * File :=
  ("id-corrupt", "blob:broken", mkFile "broken.jpg" "image/jpeg" [x00; x01]).

(** A file the browser decodes, but whose stream jsPDF cannot read as a
    JPEG. *)
Definition unsupported : string * string * File :=
  ("id-unsupported", "blob:jpeg-odd", mkFile "odd.jpg" "image/jpeg" [x42; x4d]).

Definition twelve : list (string * string * File) := map jpeg (seq 0 12).

End Sample.

(** ** Further notions used by the statements *)

Definition started (f : FileData) : FileData :=
  spread f (mkUpdates (Some PROCESSING) None None).

(** The folder handle of [createZipFromFiles]. *)
Definition zipRoot : string := "converted_pdfs/".

Definition entryPath (f : FileData) : string := zipRoot +:+ pdfName f.

(** The counters of a run, relative to the queue [q], to the statistics
    [st0] at the click and to the size [n] of the store at the click. *)
Definition runStats (host : Host) (q : list FileData) (st0 : ProcessingStats) (n : nat)
    (s : App) : Prop :=
  total (stats s) = n ∧
  processed (stats s) + length (todo (pc s)) = length q ∧
  success (stats s) + countOk host (todo (pc s)) = success st0 + countOk host q ∧
  failed (stats s) + countFailed host (todo (pc s)) = failed st0 + countFailed host q.

(** Every store item is an item of the store [F0] at the click, or has
    the id of a queue member, or is as [handleFilesAdded] made it. *)
Definition classified (F0 q : list FileData) (fs : list FileData) : Prop :=
  ∀ g, g ∈ fs → g ∈ F0 ∨ id g ∈ map id q ∨ pristine g.

(** The position of a run in its queue: the batch index is a multiple of
    [BATCH_SIZE] that names one of the waves, and the pending members are
    taken from that wave. *)
Definition onWave (q : list FileData) (p : Pc) : Prop :=
  match p with
  | Stopped => True
  | Awaiting q' i pending =>
      q' = q ∧
      (∃ m, i = m * BATCH_SIZE ∧ waves q !! m = Some (slice i (i + BATCH_SIZE) q)) ∧
      pending `sublist_of` slice i (i + BATCH_SIZE) q
  | Sleeping q' i =>
      q' = q ∧
      ∃ m, i = m * BATCH_SIZE ∧ waves q !! m = Some (slice i (i + BATCH_SIZE) q)
  end.

(** ** Sample runs *)

Module SampleRuns.

(** Twelve JPEGs have been dropped on a fresh application. *)
Definition loaded : App :=
  mkApp (map newFileData Sample.twelve) initialStats false Stopped.

(** Their run, with every wave settling in queue order, has ended. *)
Definition finished : App :=
  Eval vm_compute in
    default initialApp
      (exec Sample.host (inOrderSchedule 1 (files loaded)) (processQueue 0 loaded)).

(** A corrupt file has been dropped and one run has failed on it. *)
Definition failedOnce : list Event :=
  [FilesAdded [Sample.corrupt]; ConvertAll 0; Settled 0; AllSettled; TimerFired 1].

Definition corruptFailed : FileData :=
  mkFileData "id-corrupt" (mkFile "broken.jpg" "image/jpeg" [x00; x01]) "blob:broken"
    ERROR None (Some "Failed to convert") None None.

Definition afterFailedRun : App :=
  mkApp [corruptFailed] (mkStats 1 1 0 1 (Some 0%Z) (Some 1%Z)) false Stopped.

(** The second click on that state: the run is suspended at its only
    batch. *)
Definition corruptRestarted : FileData :=
  mkFileData "id-corrupt" (mkFile "broken.jpg" "image/jpeg" [x00; x01]) "blob:broken"
    PROCESSING None (Some "Failed to convert") None None.

Definition restarted : App :=
  mkApp [corruptRestarted] (mkStats 1 0 0 1 (Some 2%Z) (Some 1%Z)) true
        (Awaiting [corruptFailed] 0 [corruptFailed]).

(** The second run has ended. *)
Definition afterSecondRun : App :=
  mkApp [corruptFailed] (mkStats 1 1 0 2 (Some 2%Z) (Some 3%Z)) false Stopped.

(** One JPEG has been converted and a second one dropped afterwards. *)
Definition mixedEvents : list Event :=
  [FilesAdded [Sample.jpeg 1]; ConvertAll 0; Settled 0; AllSettled; TimerFired 1;
   FilesAdded [Sample.jpeg 2]].

Definition mixed : App :=
  Eval vm_compute in default initialApp (exec Sample.host mixedEvents initialApp).

Definition convertedItem : FileData :=
  Eval vm_compute in default (newFileData (Sample.jpeg 1)) (head (files mixed)).

(** During the second run a third JPEG is dropped and the pending
    conversion settles. *)
Definition duringSecondRun : list Event :=
  [FilesAdded [Sample.jpeg 3]; Settled 0].

Definition afterMixed : App :=
  Eval vm_compute in
    default initialApp (exec Sample.host duringSecondRun (processQueue 2 mixed)).

(** Both kinds of failing file have been dropped and their conversions
    have settled. *)
Definition twoFailures : list Event :=
  [FilesAdded [Sample.corrupt; Sample.unsupported]; ConvertAll 0; Settled 0; Settled 0].

End SampleRuns.

(** ** components/DropZone.tsx *)

(** [String.prototype.toLowerCase] on the ASCII letters.  The result is only
    compared with the suffixes [.jpg] and [.jpeg], and no character other
    than the ASCII capitals lower-cases to a character of these. *)
Definition lowerAscii (c : ascii) : ascii :=
  let n := nat_of_ascii c in
  if Nat.leb 65 n && Nat.leb n 90 then ascii_of_nat (n + 32) else c.

Fixpoint toLowerCase (s : string) : string :=
  match s with
  | EmptyString => EmptyString
  | String c rest => String (lowerAscii c) (toLowerCase rest)
  end.

(** [s.endsWith (ext)]: the last [ext.length] characters of [s] are
    [ext]. *)
Definition endsWith (s ext : string) : bool :=
  if Nat.leb (String.length ext) (String.length s) then
    String.eqb (substring (String.length s - String.length ext) (String.length ext) s) ext
  else false.

Definition validTypes : list string := ["image/jpeg"; "image/jpg"].

Definition validExtensions : list string := [".jpg"; ".jpeg"].

Definition isValidFile (f : File) : bool :=
  existsb (String.eqb (type f)) validTypes
  || existsb (λ ext, endsWith (toLowerCase (name f)) ext) validExtensions.

(** [handleDrop] and [handleFileInput]: the argument of [onFilesAdded], or
    [None] when the callback is not called. *)
Definition handleDrop (disabled : bool) (dropped : list File) : option (list File) :=
  if disabled then None
  else
    let droppedFiles := List.filter isValidFile dropped in
    if decide (0 < length droppedFiles)%nat then Some droppedFiles else None.

Definition handleFileInput (selected : list File) : option (list File) :=
  if decide (0 < length selected)%nat then Some (List.filter isValidFile selected)
  else None.

(** ** components/FileList.tsx and the buttons of App.tsx *)

(** The remove button of a [FileItem]. *)
Definition removeShown (s : App) (f : FileData) : bool :=
  negb (isProcessing s) && bool_decide (status f = IDLE).

Definition convertShown (s : App) : bool :=
  hasFiles s && negb (isProcessing s) && negb (isAllCompleted s).

Definition downloadShown (s : App) : bool :=
  bool_decide (0 < completedCount s)%nat && negb (isProcessing s).

Definition clearShown (s : App) : bool :=
  hasFiles s && negb (isProcessing s).

(** What the user and the browser can do to the mounted application.  The
    files of a drop or of a selection come with the ids and URLs that
    [handleFilesAdded] draws, one pair per file that is kept. *)
Inductive UiEvent :=
  | DropFiles (dropped : list File) (drawn : list (string * string))
  | SelectFiles (selected : list File) (drawn : list (string * string))
  | ClickRemove (i : string)
  | ClickConvert (now : Z)
  | ClickClear
  | Async (e : Event).

Definition withDrawn (drawn : list (string * string)) (kept : list File)
    : list (string * string * File) :=
  zip_with (λ d f, (d.1, d.2, f)) drawn kept.

Section Ui.
Context (host : Host).

Definition addKept (drawn : list (string * string)) (kept : list File) (s : App)
    : option App :=
  if decide (length drawn = length kept) then step host (FilesAdded (withDrawn drawn kept)) s
  else None.

(** One step of the mounted application: the drop zone and the file input
    are disabled while [isProcessing], every button acts only when it is
    shown, and the asynchronous events are those of the scheduler. *)
Definition uiStep (e : UiEvent) (s : App) : option App :=
  match e with
  | DropFiles dropped drawn =>
      match handleDrop (isProcessing s) dropped with
      | Some kept => addKept drawn kept s
      | None => Some s
      end
  | SelectFiles selected drawn =>
      if isProcessing s then None
      else
        match handleFileInput selected with
        | Some kept => addKept drawn kept s
        | None => Some s
        end
  | ClickRemove i =>
      if existsb (λ f, bool_decide (id f = i) && removeShown s f) (files s)
      then step host (RemoveFile i) s else None
  | ClickConvert now => step host (ConvertAll now) s
  | ClickClear => step host ClearAll s
  | Async e =>
      match schedStep e with
      | Some _ => step host e s
      | None => None
      end
  end.

Fixpoint uiExec (evs : list UiEvent) (s : App) : option App :=
  match evs with
  | [] => Some s
  | e :: evs' =>
      match uiStep e s with
      | Some s' => uiExec evs' s'
      | None => None
      end
  end.

End Ui.

(** ** The phases of the items *)

Definition pendingOf (p : Pc) : list FileData :=
  match p with
  | Awaiting _ _ pending => pending
  | _ => []
  end.

(** The queue members of the batches that are not started yet. *)
Definition waitingOf (p : Pc) : list FileData :=
  match p with
  | Stopped => []
  | Awaiting q i _ => drop (i + BATCH_SIZE) q
  | Sleeping q i => drop (i + BATCH_SIZE) q
  end.

Record Phase (s : App) : Prop := mkPhase {
  phase_flag : isProcessing s = true ↔ pc s ≠ Stopped;
  phase_queued : ∀ g, g ∈ files s → status g = QUEUED →
    id g ∈ map id (waitingOf (pc s));
  phase_processing : ∀ g, g ∈ files s → status g = PROCESSING →
    id g ∈ map id (pendingOf (pc s));
  phase_pending :
    match pc s with
    | Awaiting q i pending => pending `sublist_of` slice i (i + BATCH_SIZE) q
    | _ => True
    end
}.

(** ** More sample states *)

Module MoreSamples.

(** Two of the twelve conversions of the first wave have settled. *)
Definition twoSettled : App :=
  Eval vm_compute in
    default initialApp
      (exec Sample.host [Settled 0; Settled 0] (processQueue 0 SampleRuns.loaded)).

(** One photo has been converted by a first run and the twelve photos have
    been dropped afterwards. *)
Definition thirteenEvents : list Event :=
  [FilesAdded [Sample.jpeg 20]; ConvertAll 0; Settled 0; AllSettled; TimerFired 1;
   FilesAdded Sample.twelve].

Definition thirteen : App :=
  Eval vm_compute in default initialApp (exec Sample.host thirteenEvents initialApp).

(** The run started on that store, with every wave settling in queue order,
    has ended. *)
Definition thirteenFinished : App :=
  Eval vm_compute in
    default initialApp
      (exec Sample.host (inOrderSchedule 3 (filter eligible (files thirteen)))
         (processQueue 2 thirteen)).

End MoreSamples.

(** ** The items of a run *)

(** An item after [processFile] has settled on it. *)
Definition settled (host : Host) (f : FileData) : FileData :=
  match convertImageToPDF host f with
  | inr blob => spread f (mkUpdates (Some COMPLETED) (Some blob) None)
  | inl _ => spread f (mkUpdates (Some ERROR) None (Some "Failed to convert"))
  end.

(** An item of the store at the click, as it stands while the members
    [waiting] are in batches not started yet and the members [pending] are
    in flight. *)
Definition progressOf (host : Host) (waiting pending : list FileData)
    (f : FileData) : FileData :=
  if decide (eligible f) then
    if decide (id f ∈ map id waiting) then markQueued f
    else if decide (id f ∈ map id pending) then started (markQueued f)
    else settled host f
  else f.

(** An item of the store at the click, after the run. *)
Definition converted (host : Host) (f : FileData) : FileData :=
  if decide (eligible f) then settled host f else f.

(** The invariant of the mounted application. *)
Definition uiInv (s : App) : Prop :=
  Inv s ∧ Phase s ∧
  (∀ f, f ∈ files s → isValidFile (file f) = true) ∧
  (isProcessing s = true → ∀ f, f ∈ files s → status f ≠ IDLE).

(** Two files as a user drops them: a JPEG and a text file. *)
Module UiSamples.

Definition photo : File := mkFile "photo01.JPG" "" Sample.jpegBytes.

Definition notes : File := mkFile "notes.txt" "text/plain" [].

Definition dropped : list UiEvent :=
  [DropFiles [photo; notes] [("id-01", "blob:jpeg-01")]].

Definition running : list UiEvent :=
  dropped ++ [ClickConvert 0; Async (Settled 0); Async AllSettled].

Definition afterDrop : App :=
  Eval vm_compute in default initialApp (uiExec Sample.host dropped initialApp).

Definition beforeEnd : App :=
  Eval vm_compute in default initialApp (uiExec Sample.host running initialApp).

Definition atEnd : App :=
  Eval vm_compute in
    default initialApp (uiStep Sample.host (Async (TimerFired 1)) beforeEnd).

End UiSamples.

(** * Theorems *)

Local Open Scope list_scope.
Local Open Scope nat_scope.

(** ** The converter *)

Section ConverterFacts.
Context (host : Host).

Lemma convert_probe_error fd :
  imageSize host (previewUrl fd) = None →
  convertImageToPDF host fd = inl ProbeError.
Proof.
  intros Hp. unfold convertImageToPDF, getImageDimensions. by rewrite Hp.
Qed.


(** The page opened for [format = (w, h)] with the orientation the
    converter asks for is never swapped: cutting the sides down keeps their
    order. *)
Lemma firstPage_as_requested (limit w h : Z) :
  jsPDF.firstPage (if (w >? h)%Z then jsPDF.Landscape else jsPDF.Portrait) limit (w, h)
  = jsPDF.mkPage (Z.min limit w) (Z.min limit h)
      (if (w >? h)%Z then jsPDF.Landscape else jsPDF.Portrait) [].
Proof.
  unfold jsPDF.firstPage.
  destruct (Z.gtb_spec w h) as [Hgt | Hle].
  - destruct (Z.ltb_spec (Z.min limit w) (Z.min limit h)); [lia | reflexivity].
  - destruct (Z.ltb_spec (Z.min limit h) (Z.min limit w)); [lia | reflexivity].
Qed.

(** The document the converter returns when both steps succeed. *)
Lemma convert_success fd w h :
  imageSize host (previewUrl fd) = Some (w, h) →
  jpegReadable host (content (file fd)) = true →
  convertImageToPDF host fd =
    inr (jsPDF.mkDoc jsPDF.Px ["px_scaling"]
           [jsPDF.mkPage (Z.min 19200 w) (Z.min 19200 h)
              (if (w >? h)%Z then jsPDF.Landscape else jsPDF.Portrait)
              [jsPDF.mkImage (content (file fd)) "JPEG" 0 0 w h None "FAST"]]).
Proof.
  intros Hp Hj.
  unfold convertImageToPDF, getImageDimensions, jsPDF.addImage, arrayBuffer.
  rewrite Hp, Hj. unfold jsPDF.new.
  cbn [jsPDF.orientation jsPDF.format jsPDF.unit jsPDF.hotfixes].
  rewrite firstPage_as_requested. reflexivity.
Qed.


End ConverterFacts.

(** C1.  For an item whose bytes are a valid JPEG (the browser decodes it and
    the encoder reads it as a JPEG), [convertImageToPDF] returns a document,
    and the image streams found in that document are exactly one stream,
    equal byte for byte to the bytes of the item's file. *)
Theorem convert_embeds_original_bytes (host : Host) (fd : FileData) (w h : Z) :
  imageSize host (previewUrl fd) = Some (w, h) →
  jpegReadable host (content (file fd)) = true →
  ∃ doc, convertImageToPDF host fd = inr doc ∧
         jsPDF.embeddedStreams doc = [content (file fd)] ∧
         ∀ img, img ∈ concat (map jsPDF.images (jsPDF.pages doc)) →
                jsPDF.stream img = content (file fd) ∧ jsPDF.imageFormat img = "JPEG".
Proof.
  intros Hp Hj. eexists. split; [by apply convert_success|]. split; [reflexivity|].
  intros img Himg. cbn in Himg. apply list_elem_of_singleton in Himg. by subst img.
Qed.

Lemma convert_embeds_original_bytes_witness :
  ∃ doc, convertImageToPDF Sample.host (newFileData (Sample.jpeg 0)) = inr doc ∧
         jsPDF.embeddedStreams doc = [Sample.jpegBytes] ∧
         ∀ img, img ∈ concat (map jsPDF.images (jsPDF.pages doc)) →
                jsPDF.stream img = Sample.jpegBytes ∧ jsPDF.imageFormat img = "JPEG".
Proof.
  apply (convert_embeds_original_bytes Sample.host (newFileData (Sample.jpeg 0)) 640 480);
    reflexivity.
Defined.




(** ** The packager *)

Section StringFacts.

Lemma append_nil (y : string) : "" +:+ y = y.
Proof. reflexivity. Qed.

Lemma append_String (c : ascii) (x y : string) :
  String c x +:+ y = String c (x +:+ y).
Proof. reflexivity. Qed.

Lemma extensionChars_dot (x y : string) :
  extensionChars (x +:+ String "." y) = false.
Proof.
  induction x as [|c x IH].
  - reflexivity.
  - rewrite append_String. cbn [extensionChars]. rewrite IH.
    by rewrite andb_false_r.
Qed.

Lemma matchesExtension_dot_inside (c : ascii) (x y : string) :
  matchesExtension (String c (x +:+ String "." y)) = false.
Proof.
  cbn. rewrite extensionChars_dot. by rewrite !andb_false_r.
Qed.

Lemma matchesExtension_ext (ext : string) :
  ext ≠ "" → extensionChars ext = true → matchesExtension (String "." ext) = true.
Proof.
  intros Hne Hext. cbn. rewrite Hext.
  destruct (String.eqb_spec ext ""); [done | reflexivity].
Qed.

(** The pattern removes a last extension, and only that. *)
Lemma replaceExtension_strip (base ext : string) :
  ext ≠ "" → extensionChars ext = true →
  replaceExtension (base +:+ String "." ext) "" = base.
Proof.
  intros Hne Hext. induction base as [|c base IH].
  - rewrite append_nil. cbn [replaceExtension].
    by rewrite (matchesExtension_ext ext Hne Hext).
  - rewrite append_String. cbn [replaceExtension].
    rewrite matchesExtension_dot_inside. by rewrite IH.
Qed.

Lemma replaceExtension_none (s : string) :
  extensionChars s = true → replaceExtension s "" = s.
Proof.
  induction s as [|c s IH]; [reflexivity|].
  intros Hs. cbn [replaceExtension].
  assert (matchesExtension (String c s) = false) as ->.
  { cbn in *. destruct (Ascii.eqb c "."); [|reflexivity].
    cbn in Hs. rewrite andb_false_r in Hs. discriminate. }
  rewrite IH; [reflexivity|].
  cbn in Hs. apply andb_true_iff in Hs as [_ Hs]. exact Hs.
Qed.

Lemma append_nonempty_r (a b : string) : b ≠ "" → a +:+ b ≠ "".
Proof.
  destruct a; [by rewrite append_nil | rewrite append_String; discriminate].
Qed.

Lemma append_ne_self (a b : string) : b ≠ "" → a +:+ b ≠ a.
Proof.
  intros Hb Heq. induction a as [|c a IH].
  - by rewrite append_nil in Heq.
  - rewrite append_String in Heq. injection Heq as Heq. by apply IH.
Qed.

End StringFacts.

Section PackagerFacts.

Lemma entryPath_not_root f : entryPath f ≠ zipRoot.
Proof.
  unfold entryPath, pdfName. apply append_ne_self, append_nonempty_r. discriminate.
Qed.

Lemma entryPath_inj f g : entryPath f = entryPath g → pdfName f = pdfName g.
Proof. unfold entryPath. apply (inj (String.app zipRoot)). Qed.

Lemma zipOfFiles_unfold l :
  zipOfFiles l = foldl (addToFolder zipRoot) (<[zipRoot := JSZip.Folder]> ∅) l.
Proof. reflexivity. Qed.

Lemma zipOfFiles_snoc l f :
  zipOfFiles (l ++ [f]) = addToFolder zipRoot (zipOfFiles l) f.
Proof. rewrite !zipOfFiles_unfold. apply foldl_snoc. Qed.

Lemma addToFolder_lookup zip f k :
  addToFolder zipRoot zip f !! k =
    match pdfBlob f with
    | Some b => if decide (entryPath f = k) then Some (JSZip.Document b) else zip !! k
    | None => zip !! k
    end.
Proof.
  unfold addToFolder, JSZip.file. destruct (pdfBlob f); [|reflexivity].
  fold zipRoot. fold (entryPath f). apply lookup_insert.
Qed.

(** The folder entry is always there. *)
Lemma zipOfFiles_folder l : zipOfFiles l !! zipRoot = Some JSZip.Folder.
Proof.
  induction l as [|f l IH] using rev_ind.
  - rewrite zipOfFiles_unfold. cbn. apply lookup_insert_eq.
  - rewrite zipOfFiles_snoc, addToFolder_lookup.
    destruct (pdfBlob f); [|done].
    case_decide as He; [|done]. by apply entryPath_not_root in He.
Qed.

(** No entry without an item that has an artifact. *)
Lemma zipOfFiles_entries l k e :
  zipOfFiles l !! k = Some e →
  (k = zipRoot ∧ e = JSZip.Folder) ∨
  ∃ f b, f ∈ l ∧ pdfBlob f = Some b ∧ k = entryPath f ∧ e = JSZip.Document b.
Proof.
  revert k e. induction l as [|f l IH] using rev_ind; intros k e.
  - rewrite zipOfFiles_unfold. cbn. intros Hk.
    apply lookup_insert_Some in Hk as [[<- <-]|[_ Hk]]; [by left|].
    by rewrite lookup_empty in Hk.
  - rewrite zipOfFiles_snoc, addToFolder_lookup. intros Hk.
    assert (zipOfFiles l !! k = Some e →
            (k = zipRoot ∧ e = JSZip.Folder) ∨
            ∃ g b, g ∈ (l ++ [f])%list ∧ pdfBlob g = Some b ∧ k = entryPath g
                   ∧ e = JSZip.Document b) as Hold.
    { intros Hl. destruct (IH k e Hl) as [?|(g & b & Hg & ?)]; [by left|].
      right. exists g, b. split; [|done]. apply elem_of_app. by left. }
    destruct (pdfBlob f) as [b|] eqn:Hb; [|by apply Hold].
    case_decide as He; [|by apply Hold].
    injection Hk as <-. right. exists f, b.
    split; [apply elem_of_app; right; by apply list_elem_of_singleton|done].
Qed.

(** Last writer wins. *)
Lemma zipOfFiles_last l1 l2 f b :
  pdfBlob f = Some b →
  (∀ g, g ∈ l2 → is_Some (pdfBlob g) → pdfName g ≠ pdfName f) →
  zipOfFiles (l1 ++ f :: l2) !! entryPath f = Some (JSZip.Document b).
Proof.
  intros Hb. induction l2 as [|g l2 IH] using rev_ind; intros Hl2.
  - rewrite zipOfFiles_snoc, addToFolder_lookup, Hb. by rewrite decide_True.
  - replace (l1 ++ f :: l2 ++ [g])%list with ((l1 ++ f :: l2) ++ [g])%list
      by (by rewrite <- app_assoc).
    rewrite zipOfFiles_snoc, addToFolder_lookup.
    assert (zipOfFiles (l1 ++ f :: l2) !! entryPath f = Some (JSZip.Document b)) as Hrec.
    { apply IH. intros g' Hg'. apply Hl2. apply elem_of_app. by left. }
    destruct (pdfBlob g) as [bg|] eqn:Hbg; [|exact Hrec].
    rewrite decide_False; [exact Hrec|].
    intros He. apply entryPath_inj in He.
    apply (Hl2 g); [|by rewrite Hbg|done].
    apply elem_of_app. right. by apply list_elem_of_singleton.
Qed.

(** Every item with an artifact finds an entry under its name. *)
Lemma zipOfFiles_complete l f :
  f ∈ l → is_Some (pdfBlob f) →
  ∃ g b, g ∈ l ∧ pdfName g = pdfName f ∧ pdfBlob g = Some b ∧
         zipOfFiles l !! entryPath f = Some (JSZip.Document b).
Proof.
  induction l as [|g l IH] using rev_ind; intros Hf Hsome.
  - by apply elem_of_nil in Hf.
  - rewrite zipOfFiles_snoc, addToFolder_lookup.
    assert (f ∈ l →
            ∃ g0 b, g0 ∈ (l ++ [g])%list ∧ pdfName g0 = pdfName f ∧ pdfBlob g0 = Some b
                    ∧ zipOfFiles l !! entryPath f = Some (JSZip.Document b)) as Hold.
    { intros Hin. destruct (IH Hin Hsome) as (g0 & b & Hg0 & ?).
      exists g0, b. split; [|done]. apply elem_of_app. by left. }
    assert (g ∈ (l ++ [g])%list) as Hg.
    { apply elem_of_app. right. by apply list_elem_of_singleton. }
    apply elem_of_app in Hf as [Hf|Hf].
    + destruct (pdfBlob g) as [bg|] eqn:Hbg; [|by apply Hold].
      case_decide as He; [|by apply Hold].
      exists g, bg. split; [done|]. split; [by apply entryPath_inj|done].
    + apply list_elem_of_singleton in Hf as ->.
      destruct Hsome as [b Hb]. rewrite Hb, decide_True by done.
      by exists g, b.
Qed.

(** With distinct names there is one entry per item, next to the folder. *)
Lemma zipOfFiles_size l :
  Forall (λ f, is_Some (pdfBlob f)) l →
  NoDup (map pdfName l) →
  size (zipOfFiles l) = S (length l).
Proof.
  induction l as [|f l IH] using rev_ind; intros Hall Hnd.
  - rewrite zipOfFiles_unfold. cbn. by rewrite map_size_insert_None, map_size_empty.
  - apply Forall_app in Hall as [Hall Hf].
    apply Forall_singleton in Hf as [b Hb].
    rewrite map_app in Hnd. apply NoDup_app in Hnd as (Hnd & Hfresh & _).
    rewrite zipOfFiles_snoc. unfold addToFolder, JSZip.file. rewrite Hb.
    fold zipRoot. fold (entryPath f).
    assert (zipOfFiles l !! entryPath f = None) as Hnone; last first.
    { rewrite (map_size_insert_None _ _ _ Hnone), (IH Hall Hnd), length_app.
      cbn. lia. }
    destruct (zipOfFiles l !! entryPath f) as [e|] eqn:Hl; [|done].
    apply zipOfFiles_entries in Hl as [[He _]|(g & bg & Hg & _ & He & _)].
    + by apply entryPath_not_root in He.
    + apply entryPath_inj in He. exfalso.
      apply (Hfresh (pdfName g)).
      * apply list_elem_of_fmap. by exists g.
      * rewrite <- He. cbn. apply list_elem_of_singleton. done.
Qed.

(** Items without an artifact leave no trace. *)
Lemma zipOfFiles_skip l :
  zipOfFiles l = zipOfFiles (filter (λ f, is_Some (pdfBlob f)) l).
Proof.
  induction l as [|f l IH] using rev_ind; [reflexivity|].
  rewrite filter_app, zipOfFiles_snoc, IH.
  rewrite filter_cons, filter_nil.
  destruct (decide (is_Some (pdfBlob f))) as [Hs|Hn].
  - by rewrite zipOfFiles_snoc.
  - rewrite app_nil_r. unfold addToFolder.
    destruct (pdfBlob f); [|reflexivity]. exfalso. apply Hn. eauto.
Qed.

End PackagerFacts.

(** C8.  [handleDownloadZip] hands to the packager the items that are
    COMPLETED and carry an artifact.  The archive built from them holds the
    folder [converted_pdfs/] and, under it, entries that all come from such an
    item and are named by its display name with the extension replaced by
    [.pdf]; every such item finds an entry under its name; of several items
    with one name the last one's artifact is stored; with distinct names the
    archive has exactly one entry per item; items without an artifact are
    skipped by the packager without an error. *)
Theorem archive_holds_completed_items (host : Host) (s : App) :
  let done := filter completedWithBlob (files s) in
  let zip := zipOfFiles done in
  (done ≠ [] → zipWritable host zip = true →
   handleDownloadZip host s = Saved zip "converted_pdfs.zip") ∧
  zip !! "converted_pdfs/" = Some JSZip.Folder ∧
  (∀ k e, zip !! k = Some e →
     (k = "converted_pdfs/" ∧ e = JSZip.Folder) ∨
     ∃ f b, f ∈ files s ∧ status f = COMPLETED ∧ pdfBlob f = Some b ∧
            k = "converted_pdfs/" +:+ replaceExtension (name (file f)) "" +:+ ".pdf" ∧
            e = JSZip.Document b) ∧
  (∀ f, f ∈ files s → status f = COMPLETED → is_Some (pdfBlob f) →
     ∃ g b, g ∈ done ∧ pdfName g = pdfName f ∧ pdfBlob g = Some b ∧
            zip !! ("converted_pdfs/" +:+ pdfName f) = Some (JSZip.Document b)) ∧
  (∀ l1 f b l2, done = (l1 ++ f :: l2)%list → pdfBlob f = Some b →
     (∀ g, g ∈ l2 → pdfName g ≠ pdfName f) →
     zip !! ("converted_pdfs/" +:+ pdfName f) = Some (JSZip.Document b)) ∧
  (NoDup (map pdfName done) → size zip = S (length done)) ∧
  (∀ l, zipOfFiles l = zipOfFiles (filter (λ f, is_Some (pdfBlob f)) l)) ∧
  (∀ f base ext, name (file f) = base +:+ String "." ext →
     ext ≠ "" → extensionChars ext = true → pdfName f = base +:+ ".pdf").
Proof.
  intros done zip. repeat split.
  - intros Hne Hw. unfold handleDownloadZip, createZipFromFiles.
    fold done. fold zip. rewrite Hw.
    destruct (decide (length done = 0)) as [Hlen|_]; [|reflexivity].
    by apply length_zero_iff_nil in Hlen.
  - apply zipOfFiles_folder.
  - intros k e Hk.
    destruct (zipOfFiles_entries done k e Hk) as [?|(f & b & Hf & Hb & -> & ->)];
      [by left|].
    right. apply list_elem_of_filter in Hf as [[Hst _] Hf]. by exists f, b.
  - intros f Hf Hst Hb.
    apply (zipOfFiles_complete done f); [|done].
    apply list_elem_of_filter. by repeat split.
  - intros l1 f b l2 Hdone Hb Hl2. unfold zip. rewrite Hdone.
    apply (zipOfFiles_last l1 l2 f b Hb). intros g Hg _. by apply Hl2.
  - intros Hnd. apply zipOfFiles_size; [|done].
    apply Forall_forall. intros f Hf.
    by apply list_elem_of_filter in Hf as [[_ ?] _].
  - apply zipOfFiles_skip.
  - intros f base ext Hname Hne Hext. unfold pdfName.
    by rewrite Hname, replaceExtension_strip.
Qed.

(** C9.  Given items none of which carries an artifact (in particular, given
    no item), the packager builds the archive that holds the empty folder
    [converted_pdfs/] and no document, and either fails or yields that
    archive.  Given any items, the packager yields the whole archive or
    fails without yielding an archive.  The handler reports a failure of the
    packager as one alert and saves nothing; it alerts for no other reason,
    and an archive it saves is the whole archive of the completed items.
    For a store without completed item the handler does not call the
    packager. *)
Theorem packaging_is_all_or_nothing (host : Host) (s : App) (l : list FileData) :
  let done := filter completedWithBlob (files s) in
  (Forall (λ f, pdfBlob f = None) l →
   zipOfFiles l = {[ "converted_pdfs/" := JSZip.Folder ]} ∧
   (createZipFromFiles host l = None ∨
    createZipFromFiles host l = Some {[ "converted_pdfs/" := JSZip.Folder ]})) ∧
  (createZipFromFiles host l = None ∨
   createZipFromFiles host l = Some (zipOfFiles l)) ∧
  (zipWritable host (zipOfFiles l) = false → createZipFromFiles host l = None) ∧
  (done ≠ [] → createZipFromFiles host done = None →
   handleDownloadZip host s = Alerted "Failed to create ZIP file.") ∧
  (∀ m, handleDownloadZip host s = Alerted m →
     done ≠ [] ∧ createZipFromFiles host done = None ∧
     m = "Failed to create ZIP file.") ∧
  (∀ z n, handleDownloadZip host s = Saved z n →
     done ≠ [] ∧ z = zipOfFiles done ∧ n = "converted_pdfs.zip" ∧
     createZipFromFiles host done = Some z) ∧
  (done = [] → handleDownloadZip host s = NoDownload).
Proof.
  intros done.
  assert (Hnil : ∀ l0 : list FileData, length l0 ≠ 0 → l0 ≠ []) by (by intros [|]).
  split; [|split; [|split; [|split; [|split; [|split]]]]].
  - intros Hl.
    assert (Hz : zipOfFiles l = {[ "converted_pdfs/" := JSZip.Folder ]}).
    { rewrite zipOfFiles_skip.
      replace (filter (λ f, is_Some (pdfBlob f)) l) with (@nil FileData);
        [reflexivity|].
      symmetry. clear -Hl. induction Hl as [|f l0 Hf _ IH]; [reflexivity|].
      rewrite filter_cons. destruct (decide (is_Some (pdfBlob f))) as [Hs|_]; [|done].
      rewrite Hf in Hs. by destruct Hs. }
    split; [done|]. unfold createZipFromFiles. rewrite Hz.
    destruct (zipWritable host _); [by right | by left].
  - unfold createZipFromFiles.
    destruct (zipWritable host (zipOfFiles l)); [by right | by left].
  - unfold createZipFromFiles. by intros ->.
  - intros Hne Hc. unfold handleDownloadZip. fold done. rewrite Hc.
    destruct (decide (length done = 0)) as [Hlen|_]; [|reflexivity].
    by apply length_zero_iff_nil in Hlen.
  - intros m. unfold handleDownloadZip. fold done.
    destruct (decide (length done = 0)) as [|Hlen]; [discriminate|].
    destruct (createZipFromFiles host done); [discriminate|].
    intros [= <-]. split; [by apply Hnil|done].
  - intros z n. unfold handleDownloadZip, createZipFromFiles. fold done.
    destruct (decide (length done = 0)) as [|Hlen]; [discriminate|].
    destruct (zipWritable host (zipOfFiles done)); [|discriminate].
    intros [= <- <-]. split; [by apply Hnil|done].
  - unfold handleDownloadZip. fold done. by intros ->.
Qed.

(** The statement above on the store of [SampleRuns.afterMixed], for the
    empty list and a host whose archiver rejects. *)
Lemma packaging_is_all_or_nothing_witness :
  createZipFromFiles Sample.hostNoZip [] = None ∧
  handleDownloadZip Sample.hostNoZip SampleRuns.afterMixed
  = Alerted "Failed to create ZIP file.".
Proof.
  destruct (packaging_is_all_or_nothing Sample.hostNoZip SampleRuns.afterMixed [])
    as (_ & _ & Hfail & Halert & _).
  split.
  - apply Hfail. reflexivity.
  - apply Halert; [discriminate | reflexivity].
Defined.

(** The packager of [Sample.host], given no item, yields the archive that
    holds the empty folder only. *)
Example packager_given_no_item :
  createZipFromFiles Sample.host [] = Some {[ "converted_pdfs/" := JSZip.Folder ]}.
Proof. reflexivity. Qed.

(** The guard of the handler, on a store that holds no COMPLETED item: the
    download button is not rendered, and the handler would return before it
    calls the packager. *)
Example download_without_completed_items :
  filter completedWithBlob (files SampleRuns.afterFailedRun) = [] ∧
  downloadShown SampleRuns.afterFailedRun = false ∧
  handleDownloadZip Sample.host SampleRuns.afterFailedRun = NoDownload.
Proof. repeat split. Qed.

(** The alert of the handler, on the store of [SampleRuns.afterMixed] and a
    host whose archiver rejects. *)
Example download_alerts_when_archiver_rejects :
  handleDownloadZip Sample.hostNoZip SampleRuns.afterMixed
  = Alerted "Failed to create ZIP file.".
Proof. reflexivity. Qed.

(** ** The store under [updateFileStatus] *)

Section StoreFacts.

Lemma spread_id f u : id (spread f u) = id f.
Proof. reflexivity. Qed.

Lemma started_id f : id (started f) = id f.
Proof. reflexivity. Qed.

Lemma updateFileStatus_ids i u fs :
  map id (updateFileStatus i u fs) = map id fs.
Proof.
  unfold updateFileStatus. rewrite map_map. apply map_ext.
  intros f. by case_decide.
Qed.

Lemma updateFileStatus_length i u fs :
  length (updateFileStatus i u fs) = length fs.
Proof. apply length_map. Qed.

Lemma elem_of_updateFileStatus g i u fs :
  g ∈ updateFileStatus i u fs ↔
  ∃ f, f ∈ fs ∧ g = (if decide (id f = i) then spread f u else f).
Proof.
  unfold updateFileStatus.
  change (map ?h fs) with (h <$> fs). rewrite list_elem_of_fmap.
  split; intros (f & ? & ?); by exists f.
Qed.

Lemma updateFileStatus_other f i u fs :
  f ∈ fs → id f ≠ i → f ∈ updateFileStatus i u fs.
Proof.
  intros Hf Hne. apply elem_of_updateFileStatus. exists f.
  split; [done|]. by rewrite decide_False.
Qed.

Lemma updateFileStatus_absent i u fs :
  i ∉ map id fs → updateFileStatus i u fs = fs.
Proof.
  intros Hi. unfold updateFileStatus.
  rewrite <- (map_id fs) at 2. apply map_ext_in. intros f Hf.
  rewrite decide_False; [done|]. intros <-. apply Hi.
  apply list_elem_of_In in Hf. change (id f ∈ id <$> fs).
  by apply list_elem_of_fmap_2.
Qed.

(** Starting a batch marks exactly the store items whose id is in the
    batch. *)
Lemma foldl_startFile batch fs :
  foldl startFile fs batch
  = map (λ f, if decide (id f ∈ map id batch) then started f else f) fs.
Proof.
  revert fs. induction batch as [|b batch IH]; intros fs.
  - cbn. rewrite <- (map_id fs) at 1. apply map_ext. intros f.
    rewrite decide_False; [done|]. apply not_elem_of_nil.
  - cbn [foldl]. rewrite IH. unfold startFile, updateFileStatus.
    rewrite map_map. apply map_ext. intros f.
    destruct (decide (id f = id b)) as [Heq|Hne].
    + rewrite spread_id. cbn [map].
      rewrite (decide_True (P := id f ∈ id b :: map id batch))
        by (rewrite Heq; apply list_elem_of_here).
      by case_decide.
    + cbn [map]. destruct (decide (id f ∈ map id batch)) as [Hin|Hnin].
      * rewrite decide_True; [done|]. by apply list_elem_of_further.
      * rewrite decide_False; [done|].
        intros [?|?]%elem_of_cons; done.
Qed.

Lemma foldl_startFile_ids batch fs :
  map id (foldl startFile fs batch) = map id fs.
Proof.
  rewrite foldl_startFile, map_map. apply map_ext. intros f. by case_decide.
Qed.

Lemma elem_of_foldl_startFile g batch fs :
  g ∈ foldl startFile fs batch ↔
  ∃ f, f ∈ fs ∧ g = (if decide (id f ∈ map id batch) then started f else f).
Proof.
  rewrite foldl_startFile.
  change (map ?h fs) with (h <$> fs). rewrite list_elem_of_fmap.
  split; intros (f & ? & ?); by exists f.
Qed.

Lemma elem_of_map_markQueued g fs :
  g ∈ map markQueued fs ↔ ∃ f, f ∈ fs ∧ g = markQueued f.
Proof.
  change (map ?h fs) with (h <$> fs). rewrite list_elem_of_fmap.
  split; intros (f & ? & ?); by exists f.
Qed.

Lemma markQueued_id f : id (markQueued f) = id f.
Proof. unfold markQueued. by case_decide. Qed.

Lemma map_markQueued_ids fs : map id (map markQueued fs) = map id fs.
Proof. rewrite map_map. apply map_ext, markQueued_id. Qed.

(** In a store with distinct ids an item is determined by its id. *)
Lemma NoDup_ids_eq (fs : list FileData) f g :
  NoDup (map id fs) → f ∈ fs → g ∈ fs → id f = id g → f = g.
Proof.
  intros Hnd Hf Hg Heq.
  apply list_elem_of_lookup in Hf as [i Hi].
  apply list_elem_of_lookup in Hg as [j Hj].
  assert (i = j) as ->.
  { apply (NoDup_lookup (map id fs) i j (id f)); [done| |].
    - change (map id fs) with (id <$> fs). by rewrite list_lookup_fmap, Hi.
    - change (map id fs) with (id <$> fs). by rewrite list_lookup_fmap, Hj, Heq. }
  congruence.
Qed.

Lemma elem_of_ids (fs : list FileData) i :
  i ∈ map id fs ↔ ∃ f, f ∈ fs ∧ id f = i.
Proof.
  change (map id fs) with (id <$> fs). rewrite list_elem_of_fmap.
  split; intros (f & ? & ?); by exists f.
Qed.

(** The slices of the loop tile the queue. *)
Lemma slice_drop {A} (l : list A) i :
  (slice i (i + BATCH_SIZE) l ++ drop (i + BATCH_SIZE) l)%list = drop i l.
Proof.
  unfold slice. replace (i + BATCH_SIZE - i) with BATCH_SIZE by lia.
  rewrite <- (drop_drop l BATCH_SIZE i). apply take_drop.
Qed.

End StoreFacts.

(** ** The store invariant *)

Section Invariant.
Context (host : Host).

Lemma Inv_initial : Inv initialApp.
Proof.
  split; cbn; try apply NoDup_nil_2; intros f Hf; by apply elem_of_nil in Hf.
Qed.

Lemma NoDup_middle {A} (l1 l2 : list A) x :
  NoDup (l1 ++ x :: l2) → x ∉ (l1 ++ l2)%list.
Proof.
  intros (_ & H2 & H3)%NoDup_app. apply NoDup_cons in H3 as [H3 _].
  intros [?|?]%elem_of_app; [|done].
  apply (H2 x); [done|apply list_elem_of_here].
Qed.

Lemma NoDup_ids_middle (l1 l2 : list FileData) f :
  NoDup (map id (l1 ++ f :: l2)) → id f ∉ map id (l1 ++ l2).
Proof. rewrite !map_app. cbn [map]. apply NoDup_middle. Qed.

Lemma todo_AllSettled q i : todo (Awaiting q i []) = todo (Sleeping q i).
Proof. reflexivity. Qed.

(** Entering the loop at index [j] keeps the invariant, provided the
    members from [j] on are distinct and still open in the store. *)
Lemma Inv_loopHead now q j fs st b p :
  NoDup (map id fs) →
  (∀ f, f ∈ fs → is_Some (pdfBlob f) ↔ status f = COMPLETED) →
  (∀ f, f ∈ fs →
     (status f = ERROR → is_Some (error f)) ∧
     (status f = IDLE ∨ status f = QUEUED → error f = None)) →
  NoDup (map id (drop j q)) →
  (∀ f, f ∈ fs → id f ∈ map id (drop j q) → status f ≠ COMPLETED) →
  Inv (loopHead now q j (mkApp fs st b p)).
Proof.
  intros Hids Hblob Herr Hq Hopen. unfold loopHead. cbn [files stats isProcessing].
  destruct (decide (j < length q)) as [Hj|Hj].
  - split; cbn [files pc todo].
    + by rewrite foldl_startFile_ids.
    + intros g (f & Hf & ->)%elem_of_foldl_startFile.
      case_decide as Hin; [|by apply Hblob].
      cbn. split; [|discriminate].
      intros Hsome. exfalso. apply (Hopen f Hf); [|by apply Hblob].
      rewrite <- slice_drop, map_app. apply elem_of_app. by left.
    + intros g (f & Hf & ->)%elem_of_foldl_startFile.
      case_decide as Hin; [|by apply Herr].
      cbn. split; [discriminate|]. intros [?|?]; discriminate.
    + by rewrite slice_drop.
    + rewrite slice_drop.
      intros g (f & Hf & ->)%elem_of_foldl_startFile.
      case_decide as Hin; [cbn; discriminate|].
      intros Hg. by apply Hopen.
  - split; cbn [files pc todo]; try done.
    + apply NoDup_nil_2.
    + intros f _ Hf. by apply elem_of_nil in Hf.
Qed.

Lemma Inv_processQueue now s : Inv s → pc s = Stopped → Inv (processQueue now s).
Proof.
  intros [Hids Hblob Herr _ _] Hpc. unfold processQueue.
  assert (∀ f, f ∈ files s → id f ∈ map id (filter eligible (files s)) → eligible f)
    as Helig.
  { intros f Hf (g & Hg & Heq)%elem_of_ids.
    apply list_elem_of_filter in Hg as [Hel Hg].
    by rewrite (NoDup_ids_eq (files s) f g Hids Hf Hg (eq_sym Heq)). }
  apply Inv_loopHead.
  - by rewrite map_markQueued_ids.
  - intros g (f & Hf & ->)%elem_of_map_markQueued. unfold markQueued.
    case_decide as Hst; [|by apply Hblob].
    cbn. split; [|discriminate].
    intros Hsome. apply Hblob in Hsome; [|done]. congruence.
  - intros g (f & Hf & ->)%elem_of_map_markQueued. unfold markQueued.
    case_decide as Hst; [|by apply Herr].
    cbn. split; [discriminate|]. intros _.
    apply (Herr f Hf). by left.
  - rewrite drop_0. eapply sublist_NoDup; [exact Hids|].
    change (map id ?l) with (id <$> l). apply fmap_sublist, sublist_filter.
  - rewrite drop_0.
    intros g (f & Hf & ->)%elem_of_map_markQueued. rewrite markQueued_id.
    intros Hin. specialize (Helig f Hf Hin). unfold markQueued.
    case_decide; [cbn; discriminate|].
    destruct Helig as [?|Hst]; [done|]. rewrite Hst. discriminate.
Qed.

Lemma Inv_settleFile f k q i pending s :
  Inv s → pc s = Awaiting q i pending → pending !! k = Some f →
  Inv (mkApp (files (settleFile host f s)) (stats (settleFile host f s))
             (isProcessing (settleFile host f s)) (Awaiting q i (delete k pending))).
Proof.
  intros [Hids Hblob Herr Htodo Hopen] Hpc Hk. rewrite Hpc in Htodo, Hopen.
  cbn [todo] in Htodo, Hopen.
  assert (id f ∈ map id (pending ++ drop (i + BATCH_SIZE) q)%list) as Hfin.
  { apply elem_of_ids. exists f. split; [|done].
    apply elem_of_app. left. by eapply list_elem_of_lookup_2. }
  assert (id f ∉ map id (delete k pending ++ drop (i + BATCH_SIZE) q)%list) as Hfout.
  { rewrite delete_take_drop, <- app_assoc. apply NoDup_ids_middle.
    by rewrite app_comm_cons, app_assoc, take_drop_middle. }
  assert (NoDup (map id (delete k pending ++ drop (i + BATCH_SIZE) q)%list)) as Hnd.
  { eapply sublist_NoDup; [exact Htodo|].
    change (map id ?l) with (id <$> l). apply fmap_sublist.
    apply sublist_app; [apply sublist_delete|done]. }
  assert (∀ g, g ∈ files s →
            id g ∈ map id (delete k pending ++ drop (i + BATCH_SIZE) q)%list →
            status g ≠ COMPLETED) as Hopen'.
  { intros g Hg Hin. apply (Hopen g Hg).
    rewrite map_app in Hin |- *. apply elem_of_app in Hin as [Hin|Hin];
      apply elem_of_app; [left|by right].
    apply elem_of_ids in Hin as (x & Hx & <-). apply elem_of_ids.
    exists x. split; [|done]. eapply elem_of_sublist; [exact Hx|apply sublist_delete]. }
  unfold settleFile. destruct (convertImageToPDF host f) as [e|blob];
    split; cbn [files pc todo]; try done.
  - by rewrite updateFileStatus_ids.
  - intros g (x & Hx & ->)%elem_of_updateFileStatus.
    case_decide as Hid; [|by apply Hblob].
    cbn. split; [|discriminate].
    intros Hsome. exfalso. apply (Hopen x Hx); [by rewrite Hid|by apply Hblob].
  - intros g (x & Hx & ->)%elem_of_updateFileStatus.
    case_decide as Hid; [|by apply Herr].
    cbn. split; [eauto|]. intros [?|?]; discriminate.
  - intros g (x & Hx & ->)%elem_of_updateFileStatus.
    case_decide as Hid; [cbn; discriminate|].
    intros Hin. by apply Hopen'.
  - by rewrite updateFileStatus_ids.
  - intros g (x & Hx & ->)%elem_of_updateFileStatus.
    case_decide as Hid; [|by apply Hblob].
    cbn. split; eauto.
  - intros g (x & Hx & ->)%elem_of_updateFileStatus.
    case_decide as Hid; [|by apply Herr].
    cbn. split; [discriminate|]. intros [?|?]; discriminate.
  - intros g (x & Hx & ->)%elem_of_updateFileStatus.
    case_decide as Hid; [|intros Hin; by apply Hopen'].
    rewrite spread_id, Hid. intros Hin. by apply Hfout in Hin.
Qed.

Lemma Inv_step e s s' : Inv s → step host e s = Some s' → Inv s'.
Proof.
  intros HI Hstep. destruct e as [new|i| |now|k| |now]; cbn in Hstep.
  - (* FilesAdded *)
    case_decide as Hfresh; [|discriminate]. injection Hstep as <-.
    destruct HI as [Hids Hblob Herr Htodo Hopen], Hfresh as [Hnd Hnew].
    assert (map id (map newFileData new) = map (λ x, x.1.1) new) as Hnewids.
    { rewrite map_map. apply map_ext. by intros [[??]?]. }
    assert (∀ g, g ∈ map newFileData new → pristine g) as Hprist.
    { intros g Hg. change (g ∈ newFileData <$> new) in Hg.
      apply list_elem_of_fmap in Hg as ([[??]?] & -> & _). done. }
    split; cbn [files pc]; try done.
    + rewrite map_app, Hnewids. apply NoDup_app. split; [done|]. split; [|done].
      intros x Hx Hx'. rewrite Forall_forall in Hnew. apply (Hnew x Hx').
      unfold usedIds. apply elem_of_app. by left.
    + intros f [Hf|Hf]%elem_of_app; [by apply Hblob|].
      destruct (Hprist f Hf) as (-> & -> & _). split; [by intros [??]|discriminate].
    + intros f [Hf|Hf]%elem_of_app; [by apply Herr|].
      destruct (Hprist f Hf) as (-> & _ & ->). split; [discriminate|done].
    + intros f [Hf|Hf]%elem_of_app; [by apply Hopen|].
      destruct (Hprist f Hf) as (-> & _). discriminate.
  - (* RemoveFile *)
    injection Hstep as <-. destruct HI as [Hids Hblob Herr Htodo Hopen].
    split; cbn [files pc]; try done.
    + eapply sublist_NoDup; [exact Hids|].
      change (map id ?l) with (id <$> l). apply fmap_sublist, sublist_filter.
    + intros f [_ Hf]%list_elem_of_filter. by apply Hblob.
    + intros f [_ Hf]%list_elem_of_filter. by apply Herr.
    + intros f [_ Hf]%list_elem_of_filter. by apply Hopen.
  - (* ClearAll *)
    destruct (hasFiles s && negb (isProcessing s)); [|discriminate].
    injection Hstep as <-. destruct HI as [Hids Hblob Herr Htodo Hopen].
    split; cbn [files pc]; try done; try apply NoDup_nil_2;
      intros f Hf; by apply elem_of_nil in Hf.
  - (* ConvertAll *)
    destruct (pc s) eqn:Hpc; try discriminate.
    destruct (hasFiles s && negb (isProcessing s) && negb (isAllCompleted s));
      [|discriminate].
    injection Hstep as <-. by apply Inv_processQueue.
  - (* Settled *)
    destruct (pc s) as [|q i pending|] eqn:Hpc; try discriminate.
    destruct (pending !! k) as [f|] eqn:Hk; [|discriminate].
    injection Hstep as <-. by apply Inv_settleFile.
  - (* AllSettled *)
    destruct (pc s) as [|q i [|]|] eqn:Hpc; try discriminate.
    injection Hstep as <-. destruct HI as [Hids Hblob Herr Htodo Hopen].
    rewrite Hpc in Htodo, Hopen. by split.
  - (* TimerFired *)
    destruct (pc s) as [| |q i] eqn:Hpc; try discriminate.
    injection Hstep as <-. destruct HI as [Hids Hblob Herr Htodo Hopen].
    rewrite Hpc in Htodo, Hopen. destruct s as [fs st b p]. by apply Inv_loopHead.
Qed.

Lemma Inv_exec evs s s' : Inv s → exec host evs s = Some s' → Inv s'.
Proof.
  revert s. induction evs as [|e evs IH]; intros s HI Hex; cbn in Hex.
  - by injection Hex as <-.
  - destruct (step host e s) as [s1|] eqn:Hstep; [|discriminate].
    eapply IH; [|exact Hex]. by eapply Inv_step.
Qed.

End Invariant.

(** ** Waves *)

Section WaveFacts.

Lemma wavesFrom_fuel q fuel1 fuel2 j :
  length q ≤ fuel1 + j → length q ≤ fuel2 + j →
  wavesFrom fuel1 j q = wavesFrom fuel2 j q.
Proof.
  revert fuel2 j. induction fuel1 as [|fuel1 IH]; intros [|fuel2] j H1 H2; cbn;
    try done.
  - rewrite decide_False by lia. done.
  - rewrite decide_False by lia. done.
  - case_decide; [|done]. f_equal. apply IH; unfold BATCH_SIZE; lia.
Qed.

Lemma wavesFrom_unfold q j :
  j < length q →
  wavesFrom (length q) j q
  = slice j (j + BATCH_SIZE) q :: wavesFrom (length q) (j + BATCH_SIZE) q.
Proof.
  intros Hj. rewrite (wavesFrom_fuel q (length q) (S (length q)) j) by lia.
  cbn [wavesFrom]. by rewrite decide_True.
Qed.

Lemma wavesFrom_done q fuel j : length q ≤ j → wavesFrom fuel j q = [].
Proof. intros Hj. destruct fuel; cbn; [done|]. by rewrite decide_False by lia. Qed.

(** The waves, one after the other, are the queue again: nothing is lost
    when the fuel runs out. *)
Lemma concat_wavesFrom q fuel j :
  length q ≤ fuel + j → concat (wavesFrom fuel j q) = drop j q.
Proof.
  revert j. induction fuel as [|fuel IH]; intros j Hj; cbn.
  - by rewrite drop_ge by lia.
  - case_decide.
    + cbn. rewrite IH by (unfold BATCH_SIZE; lia). apply slice_drop.
    + by rewrite drop_ge by lia.
Qed.

Lemma length_slice {A} (l : list A) j :
  length (slice j (j + BATCH_SIZE) l) = BATCH_SIZE `min` (length l - j).
Proof.
  unfold slice. rewrite length_take, length_drop. f_equal. lia.
Qed.

Lemma wavesFrom_sizes q fuel j :
  Forall (λ w, 0 < length w ≤ BATCH_SIZE) (wavesFrom fuel j q).
Proof.
  revert j. induction fuel as [|fuel IH]; intros j; cbn; [constructor|].
  case_decide; [|constructor].
  constructor; [|apply IH]. rewrite length_slice. unfold BATCH_SIZE. lia.
Qed.

(** Every wave but the last is full. *)
Lemma wavesFrom_full q fuel j ws w :
  wavesFrom fuel j q = (ws ++ [w])%list →
  Forall (λ v, length v = BATCH_SIZE) ws.
Proof.
  revert j ws. induction fuel as [|fuel IH]; intros j ws; cbn.
  - intros Heq. by destruct ws.
  - case_decide as Hj; [|intros Heq; by destruct ws].
    destruct ws as [|v ws]; [constructor|].
    rewrite <- app_comm_cons. intros [= <- Hrest].
    constructor; [|by eapply IH].
    rewrite length_slice.
    destruct fuel as [|fuel']; [by destruct ws|].
    cbn in Hrest. case_decide; [|by destruct ws].
    unfold BATCH_SIZE in *. lia.
Qed.

End WaveFacts.

(** ** The run *)

Section RunFacts.
Context (host : Host).

Lemma exec_app evs1 evs2 s :
  exec host (evs1 ++ evs2) s =
  match exec host evs1 s with
  | Some s' => exec host evs2 s'
  | None => None
  end.
Proof.
  revert s. induction evs1 as [|e evs1 IH]; intros s; cbn; [done|].
  destruct (step host e s); [apply IH|done].
Qed.

Lemma loopHead_todo now q j s : todo (pc (loopHead now q j s)) = drop j q.
Proof.
  unfold loopHead. case_decide; cbn [pc todo].
  - apply slice_drop.
  - by rewrite drop_ge by lia.
Qed.

Lemma loopHead_counts now q j s :
  let st := stats (loopHead now q j s) in
  total st = total (stats s) ∧ processed st = processed (stats s) ∧
  success st = success (stats s) ∧ failed st = failed (stats s).
Proof. unfold loopHead. by case_decide. Qed.

Lemma countOk_app l1 l2 : countOk host (l1 ++ l2) = countOk host l1 + countOk host l2.
Proof. unfold countOk. by rewrite filter_app, length_app. Qed.

Lemma countFailed_app l1 l2 :
  countFailed host (l1 ++ l2) = countFailed host l1 + countFailed host l2.
Proof. unfold countFailed. by rewrite filter_app, length_app. Qed.

Lemma countOk_cons f l :
  countOk host (f :: l) = (if succeeds host f then 1 else 0) + countOk host l.
Proof.
  unfold countOk. rewrite filter_cons.
  destruct (succeeds host f); by case_decide.
Qed.

Lemma countFailed_cons f l :
  countFailed host (f :: l) = (if succeeds host f then 0 else 1) + countFailed host l.
Proof.
  unfold countFailed. rewrite filter_cons.
  destruct (succeeds host f); by case_decide.
Qed.

Lemma count_total l : countOk host l + countFailed host l = length l.
Proof.
  induction l as [|f l IH]; [done|].
  rewrite countOk_cons, countFailed_cons. cbn [length].
  destruct (succeeds host f); lia.
Qed.

Lemma runStats_processQueue now s :
  runStats host (filter eligible (files s)) (stats s) (length (files s))
           (processQueue now s).
Proof.
  unfold runStats, processQueue. rewrite loopHead_todo, drop_0.
  destruct (loopHead_counts now (filter eligible (files s)) 0
    (mkApp (map markQueued (files s))
       (mkStats (length (files s)) 0 (success (stats s)) (failed (stats s))
          (Some now) (endTime (stats s))) true (pc s))) as (-> & -> & -> & ->).
  cbn. done.
Qed.

Lemma runStats_step q st0 n e s s' :
  duringRun e → step host e s = Some s' →
  runStats host q st0 n s → runStats host q st0 n s'.
Proof.
  intros He Hstep (Ht & Hp & Hs & Hf).
  destruct e as [new|i| |now|k| |now]; cbn in He, Hstep; try done.
  - case_decide; [|discriminate]. injection Hstep as <-. done.
  - injection Hstep as <-. done.
  - destruct (pc s) as [|q' i pending|] eqn:Hpc; try discriminate.
    destruct (pending !! k) as [f|] eqn:Hk; [|discriminate].
    injection Hstep as <-. cbn [todo] in *.
    rewrite <- (take_drop_middle pending k f Hk) in Hp, Hs, Hf.
    rewrite <- app_assoc, <- app_comm_cons in Hp, Hs, Hf.
    rewrite length_app in Hp. cbn [length] in Hp. rewrite length_app in Hp.
    rewrite countOk_app, countOk_cons, countOk_app in Hs.
    rewrite countFailed_app, countFailed_cons, countFailed_app in Hf.
    unfold runStats. cbn [pc todo]. rewrite delete_take_drop, <- app_assoc.
    rewrite !length_app, !countOk_app, !countFailed_app.
    unfold settleFile, succeeds in *.
    destruct (convertImageToPDF host f); cbn [stats total processed success failed];
      repeat split; lia.
  - destruct (pc s) as [|q' i [|]|] eqn:Hpc; try discriminate.
    injection Hstep as <-. done.
  - destruct (pc s) as [| |q' i] eqn:Hpc; try discriminate.
    injection Hstep as <-. unfold runStats. rewrite loopHead_todo.
    destruct (loopHead_counts now q' (i + BATCH_SIZE) s) as (-> & -> & -> & ->).
    done.
Qed.

Lemma runStats_exec q st0 n evs s s' :
  Forall duringRun evs → exec host evs s = Some s' →
  runStats host q st0 n s → runStats host q st0 n s'.
Proof.
  revert s. induction evs as [|e evs IH]; intros s Hall Hex HR; cbn in Hex.
  - by injection Hex as <-.
  - apply Forall_cons in Hall as [He Hall].
    destruct (step host e s) as [s1|] eqn:Hstep; [|discriminate].
    eapply IH; [done|exact Hex|]. by eapply runStats_step.
Qed.

(** The script that is left shrinks by exactly the scheduler step taken. *)
Lemma restScript_loopHead now q j s :
  restScript (pc (loopHead now q j s)) = runScript (wavesFrom (length q) j q).
Proof.
  unfold loopHead. case_decide as Hj; cbn [pc restScript].
  - rewrite (wavesFrom_unfold q j Hj). unfold runScript. cbn [map concat].
    unfold waveScript. by rewrite <- app_assoc.
  - by rewrite wavesFrom_done by lia.
Qed.

Lemma restScript_step e s s' :
  duringRun e → step host e s = Some s' →
  restScript (pc s) = (option_list (schedStep e) ++ restScript (pc s'))%list.
Proof.
  intros He Hstep.
  destruct e as [new|i| |now|k| |now]; cbn in He, Hstep; try done.
  - case_decide; [|discriminate]. by injection Hstep as <-.
  - by injection Hstep as <-.
  - destruct (pc s) as [|q' i pending|] eqn:Hpc; try discriminate.
    destruct (pending !! k) as [f|] eqn:Hk; [|discriminate].
    injection Hstep as <-. cbn [pc restScript schedStep option_list].
    rewrite length_delete by eauto.
    destruct (length pending) as [|n] eqn:Hlen.
    + apply lookup_lt_Some in Hk. lia.
    + cbn. by rewrite Nat.sub_0_r.
  - destruct (pc s) as [|q' i [|]|] eqn:Hpc; try discriminate.
    by injection Hstep as <-.
  - destruct (pc s) as [| |q' i] eqn:Hpc; try discriminate.
    injection Hstep as <-. cbn [restScript schedStep option_list].
    by rewrite restScript_loopHead.
Qed.

Lemma restScript_exec evs s s' :
  Forall duringRun evs → exec host evs s = Some s' →
  restScript (pc s) = (omap schedStep evs ++ restScript (pc s'))%list.
Proof.
  revert s. induction evs as [|e evs IH]; intros s Hall Hex; cbn in Hex.
  - by injection Hex as <-.
  - apply Forall_cons in Hall as [He Hall].
    destruct (step host e s) as [s1|] eqn:Hstep; [|discriminate].
    rewrite (restScript_step e s s1 He Hstep), (IH s1 Hall Hex).
    cbn [omap list_omap]. destruct (schedStep e); done.
Qed.

(** Every conversion that is pending can settle, in any state. *)
Lemma exec_settle_pending q i pending s :
  pc s = Awaiting q i pending →
  ∃ s', exec host (replicate (length pending) (Settled 0)) s = Some s' ∧
        pc s' = Awaiting q i [].
Proof.
  revert s. induction pending as [|f pending IH]; intros s Hpc.
  - by exists s.
  - cbn [length replicate exec step]. rewrite Hpc. cbn [lookup list_lookup].
    apply IH. reflexivity.
Qed.

(** The in-order schedule drives the loop to its end. *)
Lemma exec_inOrder now q fuel j now' s :
  length q ≤ fuel + j →
  ∃ s', exec host (concat (map (waveEvents now) (wavesFrom fuel j q)))
          (loopHead now' q j s) = Some s' ∧ pc s' = Stopped.
Proof.
  revert j now' s. induction fuel as [|fuel IH]; intros j now' s Hj.
  - cbn. unfold loopHead. rewrite decide_False by lia. eauto.
  - cbn [wavesFrom]. unfold loopHead at 1. case_decide as Hlt.
    + cbn [map concat]. unfold waveEvents at 1.
      rewrite <- app_assoc, exec_app.
      edestruct (exec_settle_pending q j (slice j (j + BATCH_SIZE) q))
        as (s1 & -> & Hpc1); [reflexivity|].
      cbn [app exec step]. rewrite Hpc1. cbn [pc].
      apply IH. unfold BATCH_SIZE. lia.
    + cbn. eauto.
Qed.

End RunFacts.

(** ** What a run leaves alone *)

Section FrameFacts.
Context (host : Host).

Lemma todo_step e s s' :
  duringRun e → step host e s = Some s' →
  ∀ x, x ∈ todo (pc s') → x ∈ todo (pc s).
Proof.
  intros He Hstep.
  destruct e as [new|i| |now|k| |now]; cbn in He, Hstep; try done.
  - case_decide; [|discriminate]. by injection Hstep as <-.
  - by injection Hstep as <-.
  - destruct (pc s) as [|q i pending|] eqn:Hpc; try discriminate.
    destruct (pending !! k) as [f|] eqn:Hk; [|discriminate].
    injection Hstep as <-. cbn [pc todo].
    intros x [Hx|Hx]%elem_of_app; apply elem_of_app; [left|by right].
    eapply elem_of_sublist; [exact Hx|apply sublist_delete].
  - destruct (pc s) as [|q i [|]|] eqn:Hpc; try discriminate.
    by injection Hstep as <-.
  - destruct (pc s) as [| |q i] eqn:Hpc; try discriminate.
    injection Hstep as <-. by rewrite loopHead_todo.
Qed.

Lemma keep_loopHead now q j s f :
  f ∈ files s → id f ∉ map id (drop j q) → f ∈ files (loopHead now q j s).
Proof.
  intros Hf Hid. unfold loopHead. case_decide; [|done]. cbn [files].
  apply elem_of_foldl_startFile. exists f. split; [done|].
  rewrite decide_False; [done|]. intros Hin. apply Hid.
  rewrite <- slice_drop, map_app. apply elem_of_app. by left.
Qed.

Lemma keep_settleFile f x s :
  f ∈ files s → id f ≠ id x → f ∈ files (settleFile host x s).
Proof.
  intros Hf Hne. unfold settleFile.
  destruct (convertImageToPDF host x); by apply updateFileStatus_other.
Qed.

(** A store item whose id is not among the members still to settle
    survives every step of the run but its own removal. *)
Lemma keep_step e s s' f :
  duringRun e → e ≠ RemoveFile (id f) → step host e s = Some s' →
  f ∈ files s → id f ∉ map id (todo (pc s)) → f ∈ files s'.
Proof.
  intros He Hrm Hstep Hf Hid.
  destruct e as [new|i| |now|k| |now]; cbn in He, Hstep; try done.
  - case_decide; [|discriminate]. injection Hstep as <-.
    apply elem_of_app. by left.
  - injection Hstep as <-. apply list_elem_of_filter. split; [|done].
    intros Heq. apply Hrm. by rewrite Heq.
  - destruct (pc s) as [|q i pending|] eqn:Hpc; try discriminate.
    destruct (pending !! k) as [x|] eqn:Hk; [|discriminate].
    injection Hstep as <-. cbn [files]. apply keep_settleFile; [done|].
    intros Heq. apply Hid. cbn [todo]. rewrite Heq, map_app.
    apply elem_of_app. left. apply elem_of_ids. exists x.
    split; [by eapply list_elem_of_lookup_2|done].
  - destruct (pc s) as [|q i [|]|] eqn:Hpc; try discriminate.
    by injection Hstep as <-.
  - destruct (pc s) as [| |q i] eqn:Hpc; try discriminate.
    injection Hstep as <-. by apply keep_loopHead.
Qed.

Lemma keep_exec evs s s' f :
  Forall duringRun evs → RemoveFile (id f) ∉ evs → exec host evs s = Some s' →
  f ∈ files s → id f ∉ map id (todo (pc s)) → f ∈ files s'.
Proof.
  revert s. induction evs as [|e evs IH]; intros s Hall Hrm Hex Hf Hid; cbn in Hex.
  - by injection Hex as <-.
  - apply Forall_cons in Hall as [He Hall].
    apply not_elem_of_cons in Hrm as [Hne Hrm].
    destruct (step host e s) as [s1|] eqn:Hstep; [|discriminate].
    apply (IH s1); try done.
    + by eapply keep_step.
    + intros (x & Hx & Heq)%elem_of_ids. apply Hid, elem_of_ids.
      exists x. split; [|done]. by eapply todo_step.
Qed.

Lemma classified_loopHead F0 q now q' j s :
  (∀ x, x ∈ drop j q' → x ∈ q) →
  classified F0 q (files s) → classified F0 q (files (loopHead now q' j s)).
Proof.
  intros Hsub Hcl. unfold loopHead. case_decide; [|done]. cbn [files].
  intros g (x & Hx & ->)%elem_of_foldl_startFile.
  case_decide as Hin; [|by apply Hcl].
  right. left. rewrite started_id.
  apply elem_of_ids in Hin as (y & Hy & <-). apply elem_of_ids.
  exists y. split; [|done]. apply Hsub.
  rewrite <- slice_drop. apply elem_of_app. by left.
Qed.

Lemma classified_step F0 q e s s' :
  duringRun e → step host e s = Some s' →
  (∀ x, x ∈ todo (pc s) → x ∈ q) →
  classified F0 q (files s) → classified F0 q (files s').
Proof.
  intros He Hstep Hsub Hcl.
  destruct e as [new|i| |now|k| |now]; cbn in He, Hstep; try done.
  - case_decide; [|discriminate]. injection Hstep as <-. cbn [files].
    intros g [Hg|Hg]%elem_of_app; [by apply Hcl|].
    right. right. change (g ∈ newFileData <$> new) in Hg.
    by apply list_elem_of_fmap in Hg as ([[??]?] & -> & _).
  - injection Hstep as <-. intros g [_ Hg]%list_elem_of_filter. by apply Hcl.
  - destruct (pc s) as [|q' i pending|] eqn:Hpc; try discriminate.
    destruct (pending !! k) as [x|] eqn:Hk; [|discriminate].
    injection Hstep as <-. cbn [files].
    assert (id x ∈ map id q) as Hxq.
    { apply elem_of_ids. exists x. split; [|done]. apply Hsub. cbn [todo].
      apply elem_of_app. left. by eapply list_elem_of_lookup_2. }
    unfold settleFile. destruct (convertImageToPDF host x); cbn [files];
      intros g (y & Hy & ->)%elem_of_updateFileStatus;
      (case_decide as Hid; [|by apply Hcl]);
      right; left; by rewrite spread_id, Hid.
  - destruct (pc s) as [|q' i [|]|] eqn:Hpc; try discriminate.
    by injection Hstep as <-.
  - destruct (pc s) as [| |q' i] eqn:Hpc; try discriminate.
    injection Hstep as <-. by apply classified_loopHead.
Qed.

Lemma classified_exec F0 q evs s s' :
  Forall duringRun evs → exec host evs s = Some s' →
  (∀ x, x ∈ todo (pc s) → x ∈ q) →
  classified F0 q (files s) →
  (∀ x, x ∈ todo (pc s') → x ∈ q) ∧ classified F0 q (files s').
Proof.
  revert s. induction evs as [|e evs IH]; intros s Hall Hex Hsub Hcl; cbn in Hex.
  - by injection Hex as <-.
  - apply Forall_cons in Hall as [He Hall].
    destruct (step host e s) as [s1|] eqn:Hstep; [|discriminate].
    apply (IH s1); try done.
    + intros x Hx. apply Hsub. by eapply todo_step.
    + by eapply classified_step.
Qed.

Lemma classified_processQueue now s :
  classified (files s) (filter eligible (files s)) (files (processQueue now s)).
Proof.
  unfold processQueue. apply classified_loopHead.
  - intros x Hx. by rewrite drop_0 in Hx.
  - cbn [files]. intros g (x & Hx & ->)%elem_of_map_markQueued.
    unfold markQueued. case_decide as Hst; [|by left].
    right. left. rewrite spread_id. apply elem_of_ids. exists x.
    split; [|done]. apply list_elem_of_filter. split; [by left|done].
Qed.

Lemma step_ConvertAll now s s1 :
  step host (ConvertAll now) s = Some s1 →
  pc s = Stopped ∧ s1 = processQueue now s.
Proof.
  cbn. destruct (pc s); try discriminate.
  destruct (hasFiles s && negb (isProcessing s) && negb (isAllCompleted s));
    [|discriminate].
  by intros [= <-].
Qed.

(** An item that is not eligible at the click is in the store right after
    the click, and no queue member carries its id. *)
Lemma keep_processQueue now s f :
  NoDup (map id (files s)) → f ∈ files s → ¬ eligible f →
  f ∈ files (processQueue now s) ∧
  id f ∉ map id (todo (pc (processQueue now s))).
Proof.
  intros Hnd Hf Hne.
  assert (id f ∉ map id (filter eligible (files s))) as Hid.
  { intros (x & [Hel Hx]%list_elem_of_filter & Heq)%elem_of_ids.
    apply Hne. by rewrite <- (NoDup_ids_eq (files s) x f Hnd Hx Hf Heq). }
  unfold processQueue. rewrite loopHead_todo, drop_0. split; [|done].
  apply keep_loopHead; [|by rewrite drop_0].
  cbn [files]. apply elem_of_map_markQueued. exists f. split; [done|].
  unfold markQueued. rewrite decide_False; [done|].
  intros Hst. apply Hne. by left.
Qed.

End FrameFacts.

(** ** The position of a run in its queue *)

Section PositionFacts.
Context (host : Host).

Lemma wavesFrom_lookup q m j :
  j + m * BATCH_SIZE < length q →
  wavesFrom (length q) j q !! m
  = Some (slice (j + m * BATCH_SIZE) (j + m * BATCH_SIZE + BATCH_SIZE) q).
Proof.
  revert j. induction m as [|m IH]; intros j Hj.
  - rewrite wavesFrom_unfold by lia. cbn. by rewrite Nat.add_0_r.
  - rewrite wavesFrom_unfold by lia. cbn [lookup list_lookup].
    change (wavesFrom (length q) (j + BATCH_SIZE) q !! m
            = Some (slice (j + S m * BATCH_SIZE) (j + S m * BATCH_SIZE + BATCH_SIZE) q)).
    replace (j + S m * BATCH_SIZE) with (j + BATCH_SIZE + m * BATCH_SIZE) by lia.
    apply IH. lia.
Qed.

Lemma onWave_loopHead now q m s :
  onWave q (pc (loopHead now q (m * BATCH_SIZE) s)).
Proof.
  unfold loopHead. case_decide as Hj; cbn [pc onWave]; [|done].
  split; [done|]. split; [|done]. exists m. split; [done|].
  unfold waves. by rewrite (wavesFrom_lookup q m 0) by lia.
Qed.

Lemma onWave_step q e s s' :
  duringRun e → step host e s = Some s' → onWave q (pc s) → onWave q (pc s').
Proof.
  intros He Hstep Hw.
  destruct e as [new|i| |now|k| |now]; cbn in He, Hstep; try done.
  - case_decide; [|discriminate]. by injection Hstep as <-.
  - by injection Hstep as <-.
  - destruct (pc s) as [|q' i pending|] eqn:Hpc; try discriminate.
    destruct (pending !! k) as [f|] eqn:Hk; [|discriminate].
    injection Hstep as <-. destruct Hw as (-> & Hm & Hsub).
    cbn [pc onWave]. repeat split; [done|].
    etrans; [apply sublist_delete|done].
  - destruct (pc s) as [|q' i [|]|] eqn:Hpc; try discriminate.
    injection Hstep as <-. by destruct Hw as (-> & Hm & _).
  - destruct (pc s) as [| |q' i] eqn:Hpc; try discriminate.
    injection Hstep as <-. destruct Hw as (-> & m & -> & _).
    replace (m * BATCH_SIZE + BATCH_SIZE) with (S m * BATCH_SIZE) by lia.
    apply onWave_loopHead.
Qed.

Lemma onWave_exec q evs s s' :
  Forall duringRun evs → exec host evs s = Some s' →
  onWave q (pc s) → onWave q (pc s').
Proof.
  revert s. induction evs as [|e evs IH]; intros s Hall Hex Hw; cbn in Hex.
  - by injection Hex as <-.
  - apply Forall_cons in Hall as [He Hall].
    destruct (step host e s) as [s1|] eqn:Hstep; [|discriminate].
    eapply IH; [done|exact Hex|]. by eapply onWave_step.
Qed.

Lemma filter_eligible_all (fs : list FileData) :
  Forall eligible fs → filter eligible fs = fs.
Proof.
  induction 1 as [|f fs Hf _ IH]; [done|].
  by rewrite filter_cons, decide_True, IH.
Qed.

Lemma countFailed_none (l : list FileData) :
  Forall (λ f, succeeds host f = true) l → countFailed host l = 0.
Proof.
  induction 1 as [|f l Hf _ IH]; [done|].
  by rewrite countFailed_cons, Hf, IH.
Qed.

Lemma waves_of_twelve (q : list FileData) :
  length q = 12 → map length (waves q) = [5; 5; 2].
Proof.
  intros Hlen. unfold waves.
  rewrite (wavesFrom_unfold q 0) by lia.
  rewrite (wavesFrom_unfold q (0 + BATCH_SIZE)) by (unfold BATCH_SIZE; lia).
  rewrite (wavesFrom_unfold q (0 + BATCH_SIZE + BATCH_SIZE)) by (unfold BATCH_SIZE; lia).
  rewrite wavesFrom_done by (unfold BATCH_SIZE; lia).
  cbn [map]. rewrite !length_slice, Hlen. reflexivity.
Qed.

Lemma filter_length_all {A} (P : A → Prop) `{!∀ x, Decision (P x)} (l : list A) :
  length (filter P l) = length l ↔ Forall P l.
Proof.
  induction l as [|x l IH]; [by split|].
  rewrite filter_cons. pose proof (length_filter P l) as Hle.
  destruct (decide (P x)) as [Hx|Hx]; cbn [length].
  - rewrite Forall_cons. split.
    + intros Hlen. split; [done|]. apply IH. lia.
    + intros [_ Hl]. f_equal. by apply IH.
  - split; [lia|]. by intros [? _]%Forall_cons.
Qed.

Lemma countOk_all (l : list FileData) :
  Forall (λ f, succeeds host f = true) l → countOk host l = length l.
Proof.
  intros Hl. pose proof (count_total host l) as Ht.
  rewrite (countFailed_none l Hl) in Ht. lia.
Qed.

Lemma exec_stays_stopped evs s s' :
  Forall duringRun evs → exec host evs s = Some s' →
  pc s = Stopped → pc s' = Stopped.
Proof.
  revert s. induction evs as [|e evs IH]; intros s Hall Hex Hpc; cbn in Hex.
  - by injection Hex as <-.
  - apply Forall_cons in Hall as [He Hall].
    destruct (step host e s) as [s1|] eqn:Hstep; [|discriminate].
    apply (IH s1 Hall Hex).
    destruct e as [new|i| |now|k| |now]; cbn in He, Hstep; try done;
      rewrite ?Hpc in Hstep; try discriminate.
    + case_decide; [|discriminate]. by injection Hstep as <-.
    + by injection Hstep as <-.
Qed.

(** A store item that carries the id of a queue member is COMPLETED or
    ERROR unless that member is still to be settled; every step of a run
    keeps it so. *)
Lemma settled_or_todo_step q e s s' :
  duringRun e → step host e s = Some s' → queueOf (pc s) = q →
  (∀ g, g ∈ files s → id g ∈ map id q →
     (status g = COMPLETED ∨ status g = ERROR) ∨ id g ∈ map id (todo (pc s))) →
  (∀ g, g ∈ files s' → id g ∈ map id q →
     (status g = COMPLETED ∨ status g = ERROR) ∨ id g ∈ map id (todo (pc s'))) ∧
  (pc s' = Stopped ∨ queueOf (pc s') = q).
Proof.
  intros He Hstep Hq HQ.
  destruct e as [new|i| |now|k| |now]; cbn in He, Hstep; try done.
  - case_decide as Hfresh; [|discriminate]. injection Hstep as <-. cbn [files pc].
    split; [|by right].
    intros g [Hg|Hg]%elem_of_app Hgq; [by apply HQ|].
    exfalso. destruct Hfresh as [_ Hfresh].
    change (g ∈ newFileData <$> new) in Hg.
    apply list_elem_of_fmap in Hg as ([[i url] f] & -> & Hx).
    rewrite Forall_forall in Hfresh.
    apply (Hfresh i).
    + change (i ∈ (λ x : string * string * File, x.1.1) <$> new).
      apply list_elem_of_fmap. by exists (i, url, f).
    + unfold usedIds. rewrite Hq. apply elem_of_app. by right.
  - injection Hstep as <-. cbn [files pc]. split; [|by right].
    intros g [_ Hg]%list_elem_of_filter. by apply HQ.
  - destruct (pc s) as [|q' i pending|] eqn:Hpc; try discriminate.
    destruct (pending !! k) as [f|] eqn:Hk; [|discriminate].
    injection Hstep as <-. cbn [files pc queueOf todo] in *. split; [|by right].
    intros g Hg Hgq.
    assert (∃ u, (u_status u = Some COMPLETED ∨ u_status u = Some ERROR) ∧
                 files (settleFile host f s) = updateFileStatus (id f) u (files s))
      as (u & Hu & Hfiles).
    { unfold settleFile. destruct (convertImageToPDF host f); eexists;
        (split; [|reflexivity]); cbn; eauto. }
    rewrite Hfiles in Hg.
    apply elem_of_updateFileStatus in Hg as (x & Hx & ->).
    destruct (decide (id x = id f)) as [Hid|Hid].
    + left. unfold spread. cbn [status]. destruct Hu as [-> | ->]; cbn; eauto.
    + destruct (HQ x Hx Hgq) as [?|Hin]; [by left|]. right.
      rewrite <- (take_drop_middle pending k f Hk) in Hin.
      rewrite delete_take_drop.
      rewrite !map_app, !elem_of_app in Hin. cbn [map] in Hin.
      rewrite !map_app, !elem_of_app.
      destruct Hin as [[?|Hin]|?]; [by left; left| |by right].
      apply elem_of_cons in Hin as [?|?]; [done|by left; right].
  - destruct (pc s) as [|q' i [|]|] eqn:Hpc; try discriminate.
    injection Hstep as <-. cbn [files pc queueOf todo] in *. split; [|by right].
    intros g Hg Hgq. by apply HQ.
  - destruct (pc s) as [| |q' i] eqn:Hpc; try discriminate.
    injection Hstep as <-. cbn [queueOf todo] in *. subst q'.
    unfold loopHead. case_decide as Hlt; cbn [files pc queueOf todo].
    + split; [|by right]. intros g Hg Hgq.
      apply elem_of_foldl_startFile in Hg as (x & Hx & ->).
      case_decide as Hb.
      * right. rewrite map_app, elem_of_app. by left.
      * destruct (HQ x Hx Hgq) as [?|Hin]; [by left|]. right.
        by rewrite slice_drop.
    + split; [|by left]. intros g Hg Hgq.
      destruct (HQ g Hg Hgq) as [?|Hin]; [by left|].
      rewrite drop_ge in Hin by lia. by apply elem_of_nil in Hin.
Qed.

Lemma settled_or_todo_exec q evs s s' :
  Forall duringRun evs → exec host evs s = Some s' → pc s' ≠ Stopped →
  queueOf (pc s) = q →
  (∀ g, g ∈ files s → id g ∈ map id q →
     (status g = COMPLETED ∨ status g = ERROR) ∨ id g ∈ map id (todo (pc s))) →
  ∀ g, g ∈ files s' → id g ∈ map id q →
    (status g = COMPLETED ∨ status g = ERROR) ∨ id g ∈ map id (todo (pc s')).
Proof.
  revert s. induction evs as [|e evs IH]; intros s Hall Hex Hrun Hq HQ; cbn in Hex.
  - by injection Hex as <-.
  - apply Forall_cons in Hall as [He Hall].
    destruct (step host e s) as [s1|] eqn:Hstep; [|discriminate].
    destruct (settled_or_todo_step q e s s1 He Hstep Hq HQ) as [HQ1 [Hstop|Hq1]].
    + by pose proof (exec_stays_stopped evs s1 s' Hall Hex Hstop).
    + by apply (IH s1).
Qed.

End PositionFacts.

(** ** The claims about the scheduler *)

(** C3.  Let the click find 12 eligible items that all convert.  The queue
    is cut into three waves of sizes 5, 5 and 2, the in-order schedule brings
    the run to its end, and every finished run has processed = 12, has
    counted 12 more successes and no more failure.  But [total] is the size
    of the whole store at the click, and [success] and [failed] start from
    the counts of the runs before: [total] is 12 only when the twelve are the
    whole store.  With one COMPLETED item beside the twelve the run ends with
    total = 13 and success = 13. *)
Theorem twelve_eligible_run_counts_whole_store (host : Host) (s s1 : App) (now : Z) :
  step host (ConvertAll now) s = Some s1 →
  let q := filter eligible (files s) in
  length q = 12 →
  Forall (λ f, succeeds host f = true) q →
  map length (waves q) = [5; 5; 2] ∧
  (∃ s', exec host (inOrderSchedule now q) s1 = Some s' ∧ pc s' = Stopped) ∧
  ∀ evs s', Forall duringRun evs → exec host evs s1 = Some s' → pc s' = Stopped →
    total (stats s') = length (files s) ∧
    processed (stats s') = 12 ∧
    success (stats s') = success (stats s) + 12 ∧
    failed (stats s') = failed (stats s) ∧
    (total (stats s') = 12 ↔ Forall eligible (files s)).
Proof.
  intros [Hpc ->]%step_ConvertAll q Hlen Hok.
  split; [by apply waves_of_twelve|]. split.
  - unfold inOrderSchedule, waves, processQueue.
    apply (exec_inOrder host now q (length q) 0). lia.
  - intros evs s' Hall Hex Hstop.
    destruct (runStats_exec host _ (stats s) (length (files s)) evs _ s' Hall Hex
                (runStats_processQueue host now s)) as (Ht & Hp & Hs & Hf).
    fold q in Hp, Hs, Hf.
    rewrite Hstop in Hp, Hs, Hf. cbn [todo length] in Hp, Hs, Hf.
    rewrite (countFailed_none host q Hok) in Hf.
    rewrite (countOk_all host q Hok) in Hs. cbn in Hs, Hf.
    split; [done|]. split; [lia|]. split; [lia|]. split; [lia|].
    rewrite Ht, <- Hlen. unfold q. split.
    + intros Heq. apply (filter_length_all eligible). by symmetry.
    + intros Hall'. symmetry. by apply (filter_length_all eligible).
Qed.

(** Twelve photos dropped beside one photo converted before: the run ends
    with total = 13 and success = 13. *)
Lemma twelve_eligible_run_counts_whole_store_witness :
  exec Sample.host MoreSamples.thirteenEvents initialApp = Some MoreSamples.thirteen ∧
  length (files MoreSamples.thirteen) = 13 ∧
  length (filter eligible (files MoreSamples.thirteen)) = 12 ∧
  map length (waves (filter eligible (files MoreSamples.thirteen))) = [5; 5; 2] ∧
  exec Sample.host (inOrderSchedule 3 (filter eligible (files MoreSamples.thirteen)))
    (processQueue 2 MoreSamples.thirteen) = Some MoreSamples.thirteenFinished ∧
  total (stats MoreSamples.thirteenFinished) = 13 ∧
  processed (stats MoreSamples.thirteenFinished) = 12 ∧
  success (stats MoreSamples.thirteenFinished) = 13 ∧
  failed (stats MoreSamples.thirteenFinished) = 0 ∧
  total (stats MoreSamples.thirteenFinished) ≠ 12.
Proof.
  assert (step Sample.host (ConvertAll 2) MoreSamples.thirteen
          = Some (processQueue 2 MoreSamples.thirteen)) as Hstep by reflexivity.
  assert (exec Sample.host
            (inOrderSchedule 3 (filter eligible (files MoreSamples.thirteen)))
            (processQueue 2 MoreSamples.thirteen) = Some MoreSamples.thirteenFinished)
    as Hex by reflexivity.
  destruct (twelve_eligible_run_counts_whole_store Sample.host MoreSamples.thirteen _ 2
              Hstep) as (Hwaves & _ & Hstats).
  - reflexivity.
  - vm_compute. repeat constructor.
  - destruct (Hstats (inOrderSchedule 3 (filter eligible (files MoreSamples.thirteen)))
                MoreSamples.thirteenFinished) as (Ht & Hp & Hs & Hf & _).
    + vm_compute. repeat constructor.
    + exact Hex.
    + reflexivity.
    + split; [reflexivity|]. split; [reflexivity|]. split; [reflexivity|].
      split; [exact Hwaves|]. split; [exact Hex|].
      split; [exact Ht|]. split; [exact Hp|]. split; [exact Hs|].
      split; [exact Hf|]. rewrite Ht. discriminate.
Defined.

(** X17.  The order of the waves.  After the click, the batches sliced off
    the queue of eligible items are consecutive pieces of it, in order, each
    of at most [BATCH_SIZE] = 5 members and all but the last of exactly 5.
    In every state of the run the members in flight belong to one of these
    waves, and the scheduler steps taken so far are a prefix of the script
    "for each wave in order: one settlement per member, then the resolution
    of [Promise.all], then the timer"; the in-order schedule brings the run
    to its end.  While the run lasts, a store item that carries the id of a
    queue member is COMPLETED or ERROR unless that member is in flight or in
    a later wave: so when the timer fires and the next wave is started, the
    members of the waves before have all become COMPLETED or ERROR. *)
Theorem waves_run_in_submission_order (host : Host) (s s1 : App) (now : Z) :
  step host (ConvertAll now) s = Some s1 →
  let q := filter eligible (files s) in
  (concat (waves q) = q ∧
   Forall (λ w, 0 < length w ≤ BATCH_SIZE) (waves q) ∧
   (∀ ws w, waves q = ws ++ [w] → Forall (λ v, length v = BATCH_SIZE) ws)) ∧
  (∀ evs s', Forall duringRun evs → exec host evs s1 = Some s' →
     onWave q (pc s') ∧
     runScript (waves q) = omap schedStep evs ++ restScript (pc s')) ∧
  (∃ s', exec host (inOrderSchedule now q) s1 = Some s' ∧ pc s' = Stopped) ∧
  (∀ evs s', Forall duringRun evs → exec host evs s1 = Some s' → pc s' ≠ Stopped →
     ∀ g, g ∈ files s' → id g ∈ map id q →
       (status g = COMPLETED ∨ status g = ERROR) ∨ id g ∈ map id (todo (pc s'))) ∧
  (∀ evs s' i, Forall duringRun evs → exec host evs s1 = Some s' →
     pc s' = Sleeping q i →
     ∀ g, g ∈ files s' → id g ∈ map id (take (i + BATCH_SIZE) q) →
       id g ∉ map id (drop (i + BATCH_SIZE) q) →
       status g = COMPLETED ∨ status g = ERROR).
Proof.
  intros [Hpc ->]%step_ConvertAll q.
  assert (Htodo : ∀ evs s', Forall duringRun evs →
            exec host evs (processQueue now s) = Some s' → pc s' ≠ Stopped →
            ∀ g, g ∈ files s' → id g ∈ map id q →
              (status g = COMPLETED ∨ status g = ERROR) ∨ id g ∈ map id (todo (pc s'))).
  { intros evs s' Hall Hex Hrun.
    destruct (decide (q = [])) as [Hnil|Hne].
    { intros g _ Hg. rewrite Hnil in Hg. by apply elem_of_nil in Hg. }
    apply (settled_or_todo_exec host q evs (processQueue now s) s' Hall Hex Hrun).
    - unfold processQueue, loopHead. fold q.
      rewrite decide_True; [reflexivity|]. destruct q; [done|cbn; lia].
    - intros g _ Hg. right. unfold processQueue. fold q.
      by rewrite loopHead_todo, drop_0. }
  split; [|split; [|split; [|split]]].
  - split; [|split].
    + unfold waves. by rewrite concat_wavesFrom, drop_0 by lia.
    + apply wavesFrom_sizes.
    + intros ws w. apply wavesFrom_full.
  - intros evs s' Hall Hex. split.
    + eapply onWave_exec; [done|exact Hex|]. unfold processQueue.
      apply (onWave_loopHead now q 0).
    + rewrite <- (restScript_exec host evs _ s' Hall Hex).
      unfold processQueue. by rewrite restScript_loopHead.
  - unfold inOrderSchedule, waves, processQueue.
    apply (exec_inOrder host now q (length q) 0). lia.
  - exact Htodo.
  - intros evs s' i Hall Hex Hsleep g Hg Hearly Hlater.
    assert (id g ∈ map id q) as Hgq.
    { rewrite <- (take_drop (i + BATCH_SIZE) q), map_app, elem_of_app. by left. }
    assert (pc s' ≠ Stopped) as Hrun by (by rewrite Hsleep).
    destruct (Htodo evs s' Hall Hex Hrun g Hg Hgq) as [?|Hin]; [done|].
    rewrite Hsleep in Hin. cbn [todo] in Hin. done.
Qed.

Lemma waves_run_in_submission_order_witness :
  step Sample.host (ConvertAll 0) SampleRuns.loaded
    = Some (processQueue 0 SampleRuns.loaded) ∧
  concat (waves (filter eligible (files SampleRuns.loaded)))
    = filter eligible (files SampleRuns.loaded) ∧
  (∃ s', exec Sample.host
           (inOrderSchedule 0 (filter eligible (files SampleRuns.loaded)))
           (processQueue 0 SampleRuns.loaded) = Some s' ∧ pc s' = Stopped) ∧
  ∀ g, g ∈ files MoreSamples.twoSettled →
       id g ∈ map id (filter eligible (files SampleRuns.loaded)) →
       (status g = COMPLETED ∨ status g = ERROR) ∨
       id g ∈ map id (todo (pc MoreSamples.twoSettled)).
Proof.
  assert (step Sample.host (ConvertAll 0) SampleRuns.loaded
          = Some (processQueue 0 SampleRuns.loaded)) as Hstep by reflexivity.
  split; [exact Hstep|].
  destruct (waves_run_in_submission_order Sample.host SampleRuns.loaded _ 0 Hstep)
    as ((Hconcat & _) & _ & Hend & Htodo & _).
  split; [exact Hconcat|]. split; [exact Hend|].
  apply (Htodo [Settled 0; Settled 0] MoreSamples.twoSettled).
  - repeat constructor.
  - reflexivity.
  - discriminate.
Defined.

(** C6 (as the code has it).  When the conversion of a pending member fails,
    for either reason, the settlement step is taken all the same: the run
    stays at the same batch with the other members still pending and this
    one not pending any more, [processed] and [failed] grow by one, and the
    store items with that id become ERROR with the fixed message "Failed to
    convert", all others being untouched.  Every finished run has counted
    each queue member once, the failing ones as failed and the others as
    successes, and its scheduler steps are exactly the script of the waves:
    one settlement per member, none repeated.  With one item in the store
    that cannot be decoded and fresh statistics, a finished run has
    failed = 1 and success = 0. *)
Theorem conversion_failure_is_isolated (host : Host) :
  (∀ s q i pending k f e,
     pc s = Awaiting q i pending →
     pending !! k = Some f →
     convertImageToPDF host f = inl e →
     ∃ s', step host (Settled k) s = Some s' ∧
       pc s' = Awaiting q i (delete k pending) ∧
       isProcessing s' = isProcessing s ∧
       total (stats s') = total (stats s) ∧
       processed (stats s') = processed (stats s) + 1 ∧
       failed (stats s') = failed (stats s) + 1 ∧
       success (stats s') = success (stats s) ∧
       files s' = map (λ x, if decide (id x = id f)
                            then mkFileData (id x) (file x) (previewUrl x) ERROR
                                   (pdfBlob x) (Some "Failed to convert")
                                   (width x) (height x)
                            else x) (files s)) ∧
  (∀ s0 now s1 evs s', step host (ConvertAll now) s0 = Some s1 →
     Forall duringRun evs → exec host evs s1 = Some s' → pc s' = Stopped →
     let q0 := filter eligible (files s0) in
     processed (stats s') = length q0 ∧
     success (stats s') = success (stats s0) + countOk host q0 ∧
     failed (stats s') = failed (stats s0) + countFailed host q0 ∧
     omap schedStep evs = runScript (waves q0)) ∧
  (∀ f s0 now s1 evs s', files s0 = [f] → eligible f → stats s0 = initialStats →
     imageSize host (previewUrl f) = None →
     step host (ConvertAll now) s0 = Some s1 →
     Forall duringRun evs → exec host evs s1 = Some s' → pc s' = Stopped →
     failed (stats s') = 1 ∧ success (stats s') = 0).
Proof.
  assert (∀ s0 now s1 evs s', step host (ConvertAll now) s0 = Some s1 →
     Forall duringRun evs → exec host evs s1 = Some s' → pc s' = Stopped →
     processed (stats s') = length (filter eligible (files s0)) ∧
     success (stats s') = success (stats s0) + countOk host (filter eligible (files s0)) ∧
     failed (stats s') = failed (stats s0) + countFailed host (filter eligible (files s0)) ∧
     omap schedStep evs = runScript (waves (filter eligible (files s0)))) as Hrun.
  { intros s0 now s1 evs s' [_ ->]%step_ConvertAll Hall Hex Hstop.
    destruct (runStats_exec host _ (stats s0) (length (files s0)) evs _ s' Hall Hex
                (runStats_processQueue host now s0)) as (_ & Hp & Hs & Hf).
    pose proof (restScript_exec host evs _ s' Hall Hex) as Hscript.
    unfold processQueue in Hscript. rewrite restScript_loopHead in Hscript.
    rewrite Hstop in Hp, Hs, Hf, Hscript. cbn in Hp, Hs, Hf, Hscript.
    rewrite app_nil_r in Hscript. repeat split; (lia || done). }
  split; [|split].
  - intros s q i pending k f e Hpc Hk Hconv.
    eexists. cbn [step]. rewrite Hpc, Hk. split; [reflexivity|].
    unfold settleFile. rewrite Hconv. cbn. repeat split.
  - exact Hrun.
  - intros f s0 now s1 evs s' Hfiles Hel Hstats Hprobe Hstep Hall Hex Hstop.
    destruct (Hrun s0 now s1 evs s' Hstep Hall Hex Hstop) as (_ & Hs & Hf & _).
    rewrite Hfiles, Hstats in Hs, Hf.
    rewrite filter_cons, decide_True, filter_nil in Hs, Hf by done.
    rewrite countOk_cons in Hs. rewrite countFailed_cons in Hf.
    unfold succeeds in Hs, Hf.
    rewrite (convert_probe_error host f Hprobe) in Hs, Hf. cbn in Hs, Hf. lia.
Qed.

(** One corrupt file on a fresh application: the click, then the settlement
    of its conversion. *)
Lemma conversion_failure_is_isolated_witness :
  ∃ s', step Sample.host (Settled 0)
          (processQueue 0 (mkApp [newFileData Sample.corrupt] initialStats false Stopped))
        = Some s' ∧
        failed (stats s') = 1 ∧ success (stats s') = 0 ∧
        map error (files s') = [Some "Failed to convert"].
Proof.
  destruct (conversion_failure_is_isolated Sample.host) as (Hitem & _).
  destruct (Hitem
              (processQueue 0 (mkApp [newFileData Sample.corrupt] initialStats false Stopped))
              [newFileData Sample.corrupt] 0 [newFileData Sample.corrupt] 0
              (newFileData Sample.corrupt) ProbeError
              eq_refl eq_refl eq_refl) as (s' & Hstep & _ & _ & _ & _ & Hf & Hs & Hfiles).
  exists s'. split; [exact Hstep|]. split; [exact Hf|]. split; [exact Hs|].
  rewrite Hfiles. reflexivity.
Defined.

(** C6 (as stated) fails: a file the browser cannot decode and a file the
    encoder cannot read fail for different reasons, yet the store records
    the same message for both, so the message does not tell the error kind
    and no ProbeError is recorded. *)
Lemma failure_message_hides_error_kind :
  ∃ s, exec Sample.host SampleRuns.twoFailures initialApp = Some s ∧
       map (convertImageToPDF Sample.host) (files s)
         = [inl ProbeError; inl EncodingError] ∧
       map error (files s) = [Some "Failed to convert"; Some "Failed to convert"] ∧
       ¬ ∃ kindOf : string → ConvError,
           ∀ g e, g ∈ files s → convertImageToPDF Sample.host g = inl e →
                  ∃ m, error g = Some m ∧ kindOf m = e.
Proof.
  eexists. split; [reflexivity|]. split; [reflexivity|]. split; [reflexivity|].
  intros (kindOf & Hkind).
  edestruct (Hkind _ ProbeError (list_elem_of_here _ _)) as (m1 & Hm1 & H1);
    [reflexivity|].
  edestruct (Hkind _ EncodingError (list_elem_of_further _ _ _ (list_elem_of_here _ _)))
    as (m2 & Hm2 & H2); [reflexivity|].
  cbn in Hm1, Hm2. injection Hm1 as <-. injection Hm2 as <-.
  rewrite H1 in H2. discriminate.
Qed.

(** C4 (as the code has it).  At the click exactly the IDLE and the ERROR
    items of the store form the queue.  The bulk update turns every IDLE item
    into a QUEUED one and leaves every other item, the ERROR ones included,
    as it is; the first batch is started on the store so updated, which takes
    an ERROR member straight to PROCESSING.  When every item of the store is
    eligible, the total set at the click is the number of eligible items. *)
Theorem run_start_queues_idle_items (host : Host) (s s1 : App) (now : Z) :
  step host (ConvertAll now) s = Some s1 →
  let q := filter eligible (files s) in
  (∀ f, f ∈ q ↔ f ∈ files s ∧ (status f = IDLE ∨ status f = ERROR)) ∧
  (∀ f, status f = IDLE →
        markQueued f = mkFileData (id f) (file f) (previewUrl f) QUEUED
                         (pdfBlob f) (error f) (width f) (height f)) ∧
  (∀ f, status f ≠ IDLE → markQueued f = f) ∧
  (q ≠ [] → pc s1 = Awaiting q 0 (slice 0 BATCH_SIZE q)) ∧
  files s1 = foldl startFile (map markQueued (files s)) (slice 0 BATCH_SIZE q) ∧
  (∀ g, g ∈ files s1 →
        ∃ f, f ∈ files s ∧ id g = id f ∧
             (id f ∈ map id (slice 0 BATCH_SIZE q) →
              g = mkFileData (id f) (file f) (previewUrl f) PROCESSING
                    (pdfBlob f) (error f) (width f) (height f)) ∧
             (id f ∉ map id (slice 0 BATCH_SIZE q) → g = markQueued f)) ∧
  (Forall eligible (files s) → total (stats s1) = length q).
Proof.
  intros [Hpc ->]%step_ConvertAll q.
  assert (files (processQueue now s)
          = foldl startFile (map markQueued (files s)) (slice 0 BATCH_SIZE q)) as Hfiles.
  { unfold processQueue, loopHead. fold q. case_decide as Hlen; [reflexivity|].
    cbn [files].
    replace q with (@nil FileData) by (symmetry; apply length_zero_iff_nil; lia).
    reflexivity. }
  split; [|split; [|split; [|split; [|split; [|split]]]]].
  - intros f. unfold q. rewrite list_elem_of_filter. unfold eligible. tauto.
  - intros f Hst. unfold markQueued. by rewrite decide_True.
  - intros f Hst. unfold markQueued. by rewrite decide_False.
  - intros Hq. unfold processQueue, loopHead. fold q.
    rewrite decide_True; [done|]. destruct q; [done|cbn; lia].
  - exact Hfiles.
  - rewrite Hfiles. intros g (x & (f & Hf & ->)%elem_of_map_markQueued & ->)%elem_of_foldl_startFile.
    exists f. rewrite markQueued_id. split; [done|].
    case_decide as Hin.
    + split; [by rewrite started_id, markQueued_id|]. split; [|done].
      intros _. unfold markQueued, started. by case_decide.
    + split; [by rewrite markQueued_id|]. split; [done|]. by intros _.
  - intros Hall. unfold q. rewrite (filter_eligible_all _ Hall).
    destruct (runStats_processQueue host now s) as (Ht & _). exact Ht.
Qed.

Lemma run_start_queues_idle_items_witness :
  step Sample.host (ConvertAll 2) SampleRuns.afterFailedRun
    = Some (processQueue 2 SampleRuns.afterFailedRun) ∧
  map status (files (processQueue 2 SampleRuns.afterFailedRun)) = [PROCESSING] ∧
  total (stats (processQueue 2 SampleRuns.afterFailedRun)) = 1.
Proof.
  assert (step Sample.host (ConvertAll 2) SampleRuns.afterFailedRun
          = Some (processQueue 2 SampleRuns.afterFailedRun)) as Hstep by reflexivity.
  split; [exact Hstep|].
  destruct (run_start_queues_idle_items Sample.host SampleRuns.afterFailedRun _ 2 Hstep)
    as (_ & _ & _ & _ & Hfiles & _ & Htotal).
  split.
  - rewrite Hfiles. reflexivity.
  - rewrite Htotal; [reflexivity|]. constructor; [by right|constructor].
Defined.

(** C4 (as stated) fails: the item that failed in a first run is eligible at
    the second click, but the bulk update leaves it ERROR; it is never QUEUED
    and goes from ERROR to PROCESSING when its batch is started. *)
Lemma failed_item_is_never_queued :
  exec Sample.host SampleRuns.failedOnce initialApp = Some SampleRuns.afterFailedRun ∧
  SampleRuns.corruptFailed ∈ filter eligible (files SampleRuns.afterFailedRun) ∧
  map status (map markQueued (files SampleRuns.afterFailedRun)) = [ERROR] ∧
  map status (files (processQueue 2 SampleRuns.afterFailedRun)) = [PROCESSING] ∧
  ¬ (∀ f, f ∈ filter eligible (files SampleRuns.afterFailedRun) →
          status (markQueued f) = QUEUED).
Proof.
  split; [reflexivity|]. split; [apply list_elem_of_here|].
  split; [reflexivity|]. split; [reflexivity|].
  intros Hall. specialize (Hall SampleRuns.corruptFailed (list_elem_of_here _ _)).
  discriminate.
Qed.

(** C5 (as the code has it).  In every state the application can reach, each
    item of the store has one status, carries an artifact exactly when it is
    COMPLETED, carries an error message whenever it is ERROR and carries none
    while it is IDLE or QUEUED. *)
Theorem store_fields_follow_status (host : Host) (evs : list Event) (s : App)
    (f : FileData) :
  exec host evs initialApp = Some s →
  f ∈ files s →
  (∃ st, status f = st ∧ ∀ st', status f = st' → st' = st) ∧
  (is_Some (pdfBlob f) ↔ status f = COMPLETED) ∧
  (status f = ERROR → is_Some (error f)) ∧
  (status f = IDLE ∨ status f = QUEUED → error f = None).
Proof.
  intros Hex Hf.
  destruct (Inv_exec host evs initialApp s Inv_initial Hex) as [_ Hblob Herr _ _].
  split; [by exists (status f); split; [|intros ? <-]|].
  split; [by apply Hblob|]. by apply Herr.
Qed.

Lemma store_fields_follow_status_witness :
  exec Sample.host SampleRuns.failedOnce initialApp = Some SampleRuns.afterFailedRun ∧
  SampleRuns.corruptFailed ∈ files SampleRuns.afterFailedRun ∧
  (is_Some (pdfBlob SampleRuns.corruptFailed) ↔ status SampleRuns.corruptFailed = COMPLETED) ∧
  (status SampleRuns.corruptFailed = ERROR → is_Some (error SampleRuns.corruptFailed)).
Proof.
  assert (exec Sample.host SampleRuns.failedOnce initialApp
          = Some SampleRuns.afterFailedRun) as Hex by reflexivity.
  assert (SampleRuns.corruptFailed ∈ files SampleRuns.afterFailedRun) as Hin
    by apply list_elem_of_here.
  split; [exact Hex|]. split; [exact Hin|].
  destruct (store_fields_follow_status Sample.host SampleRuns.failedOnce
              SampleRuns.afterFailedRun SampleRuns.corruptFailed Hex Hin)
    as (_ & Hblob & Herr & _).
  split; [exact Hblob|exact Herr].
Defined.

(** C5 (as stated) fails: while the item that failed in a first run is
    processed again, its status is PROCESSING and the message of the first
    failure is still there. *)
Lemma stale_error_while_reprocessing :
  exec Sample.host (SampleRuns.failedOnce ++ [ConvertAll 2]) initialApp
    = Some SampleRuns.restarted ∧
  SampleRuns.corruptRestarted ∈ files SampleRuns.restarted ∧
  status SampleRuns.corruptRestarted = PROCESSING ∧
  error SampleRuns.corruptRestarted = Some "Failed to convert" ∧
  ¬ (∀ g, g ∈ files SampleRuns.restarted → is_Some (error g) ↔ status g = ERROR).
Proof.
  split; [reflexivity|]. split; [apply list_elem_of_here|].
  split; [reflexivity|]. split; [reflexivity|].
  intros Hall. specialize (Hall _ (list_elem_of_here _ _)).
  destruct Hall as [Hall _].
  specialize (Hall (mk_is_Some _ _ eq_refl)). discriminate.
Qed.

(** The invariant of the counters holds in every run that starts with
    [success] and [failed] at zero, whatever is added or removed meanwhile. *)
Lemma counters_agree_when_reset (host : Host) (s s1 : App) (now : Z)
    (evs : list Event) (s' : App) :
  success (stats s) = 0 → failed (stats s) = 0 →
  step host (ConvertAll now) s = Some s1 →
  Forall duringRun evs → exec host evs s1 = Some s' →
  processed (stats s') = success (stats s') + failed (stats s') ∧
  processed (stats s') ≤ total (stats s') ∧
  total (stats s') = length (files s).
Proof.
  intros Hs0 Hf0 [_ ->]%step_ConvertAll Hall Hex.
  destruct (runStats_exec host _ (stats s) (length (files s)) evs _ s' Hall Hex
              (runStats_processQueue host now s)) as (Ht & Hp & Hs & Hf).
  pose proof (count_total host (todo (pc s'))) as Htodo.
  pose proof (count_total host (filter eligible (files s))) as Hq.
  pose proof (length_filter eligible (files s)) as Hle.
  rewrite Hs0 in Hs. rewrite Hf0 in Hf. lia.
Qed.

(** C2.  The counters of a second run: after one run that failed on the only
    item of the store, the second click resets [processed] but not [failed],
    so that [processed = success + failed] is false from the click on, and
    at the end of that run [success + failed] exceeds [total].  With a store
    of one COMPLETED and one IDLE item, the click sets [total] to 2 although
    one item is eligible. *)
Theorem second_run_counters_disagree :
  exec Sample.host (SampleRuns.failedOnce ++ [ConvertAll 2]) initialApp
    = Some SampleRuns.restarted ∧
  exec Sample.host [Settled 0; AllSettled; TimerFired 3] SampleRuns.restarted
    = Some SampleRuns.afterSecondRun ∧
  processed (stats SampleRuns.restarted)
    ≠ success (stats SampleRuns.restarted) + failed (stats SampleRuns.restarted) ∧
  ¬ (success (stats SampleRuns.afterSecondRun) + failed (stats SampleRuns.afterSecondRun)
     ≤ total (stats SampleRuns.afterSecondRun)) ∧
  exec Sample.host SampleRuns.mixedEvents initialApp = Some SampleRuns.mixed ∧
  step Sample.host (ConvertAll 2) SampleRuns.mixed
    = Some (processQueue 2 SampleRuns.mixed) ∧
  total (stats (processQueue 2 SampleRuns.mixed)) = 2 ∧
  length (filter eligible (files SampleRuns.mixed)) = 1.
Proof.
  split; [reflexivity|]. split; [reflexivity|].
  split; [cbn; lia|]. split; [cbn; lia|].
  split; [reflexivity|]. split; [reflexivity|]. split; reflexivity.
Qed.

(** C10.  Let a run be started in a reachable state and followed through
    any events of the run.  A store item that was COMPLETED at the click is
    still in the store, unchanged, unless it was removed by hand.  Every
    store item is an item of the store at the click, or has the id of an item
    that was IDLE or ERROR at the click, or is as [handleFilesAdded] made it;
    in particular an item whose id was not in the store at the click is IDLE
    without artifact or message and is none of the members the run has
    still to settle, which are all eligible items of the store at the
    click. *)
Theorem run_touches_only_eligible_items (host : Host) (evs0 : list Event)
    (s s1 : App) (now : Z) (evs : list Event) (s' : App) :
  exec host evs0 initialApp = Some s →
  step host (ConvertAll now) s = Some s1 →
  Forall duringRun evs →
  exec host evs s1 = Some s' →
  (∀ f, f ∈ files s → status f = COMPLETED → RemoveFile (id f) ∉ evs → f ∈ files s') ∧
  (∀ g, g ∈ files s' →
        g ∈ files s ∨
        (∃ f, f ∈ files s ∧ eligible f ∧ id g = id f) ∨
        pristine g) ∧
  (∀ g, g ∈ files s' → id g ∉ map id (files s) →
        pristine g ∧ id g ∉ map id (todo (pc s'))) ∧
  (∀ x, x ∈ todo (pc s') → x ∈ files s ∧ eligible x).
Proof.
  intros Hreach [Hpc ->]%step_ConvertAll Hall Hex.
  pose proof (Inv_exec host evs0 initialApp s Inv_initial Hreach) as [Hids _ _ _ _].
  destruct (classified_exec host (files s) (filter eligible (files s)) evs _ s'
              Hall Hex) as [Hsub Hcl].
  { intros x. unfold processQueue. by rewrite loopHead_todo, drop_0. }
  { apply classified_processQueue. }
  assert (∀ i, i ∈ map id (filter eligible (files s)) →
               ∃ f, f ∈ files s ∧ eligible f ∧ i = id f) as Hqids.
  { intros i (x & [Hel Hx]%list_elem_of_filter & <-)%elem_of_ids. by exists x. }
  split; [|split; [|split]].
  - intros f Hf Hst Hrm.
    destruct (keep_processQueue now s f Hids Hf) as [Hf1 Hid1].
    { intros [Hi|He]; congruence. }
    by apply (keep_exec host evs (processQueue now s) s' f).
  - intros g Hg. destruct (Hcl g Hg) as [?|[Hin|?]]; [by left| |by right; right].
    right. left. by apply Hqids.
  - intros g Hg Hnew.
    assert (id g ∉ map id (filter eligible (files s))) as Hnq.
    { intros (f & Hf & _ & Heq)%Hqids. apply Hnew, elem_of_ids. by exists f. }
    split.
    + destruct (Hcl g Hg) as [Hin|[Hin|?]]; [| |done].
      * exfalso. apply Hnew, elem_of_ids. by exists g.
      * done.
    + intros (x & Hx & Heq)%elem_of_ids. apply Hnq, elem_of_ids.
      exists x. split; [by apply Hsub|done].
  - intros x Hx. apply Hsub in Hx. by apply list_elem_of_filter in Hx as [? ?].
Qed.

Lemma run_touches_only_eligible_items_witness :
  exec Sample.host SampleRuns.mixedEvents initialApp = Some SampleRuns.mixed ∧
  step Sample.host (ConvertAll 2) SampleRuns.mixed
    = Some (processQueue 2 SampleRuns.mixed) ∧
  exec Sample.host SampleRuns.duringSecondRun (processQueue 2 SampleRuns.mixed)
    = Some SampleRuns.afterMixed ∧
  status SampleRuns.convertedItem = COMPLETED ∧
  SampleRuns.convertedItem ∈ files SampleRuns.mixed ∧
  SampleRuns.convertedItem ∈ files SampleRuns.afterMixed ∧
  map status (files SampleRuns.afterMixed) = [COMPLETED; COMPLETED; IDLE].
Proof.
  assert (exec Sample.host SampleRuns.mixedEvents initialApp = Some SampleRuns.mixed)
    as Hreach by reflexivity.
  assert (step Sample.host (ConvertAll 2) SampleRuns.mixed
          = Some (processQueue 2 SampleRuns.mixed)) as Hstep by reflexivity.
  assert (exec Sample.host SampleRuns.duringSecondRun (processQueue 2 SampleRuns.mixed)
          = Some SampleRuns.afterMixed) as Hex by reflexivity.
  assert (SampleRuns.convertedItem ∈ files SampleRuns.mixed) as Hin
    by apply list_elem_of_here.
  split; [exact Hreach|]. split; [exact Hstep|]. split; [exact Hex|].
  split; [reflexivity|]. split; [exact Hin|]. split; [|reflexivity].
  destruct (run_touches_only_eligible_items Sample.host SampleRuns.mixedEvents
              SampleRuns.mixed _ 2 SampleRuns.duringSecondRun SampleRuns.afterMixed
              Hreach Hstep) as (Hkeep & _); [repeat constructor|exact Hex|].
  apply Hkeep; [exact Hin|reflexivity|].
  by intros [?|[?|?%elem_of_nil]%elem_of_cons]%elem_of_cons.
Defined.

(** ** The phases of the items *)

Section PhaseFacts.
Context (host : Host).

Lemma Phase_initial : Phase initialApp.
Proof.
  split; cbn;
    [split; [discriminate|done]
    |intros g Hg; by apply elem_of_nil in Hg
    |intros g Hg; by apply elem_of_nil in Hg
    |done].
Qed.

Lemma elem_of_delete_other (l : list FileData) k f x :
  l !! k = Some f → x ∈ l → id x ≠ id f → x ∈ delete k l.
Proof.
  intros Hk Hx Hne. rewrite delete_take_drop.
  rewrite <- (take_drop_middle l k f Hk) in Hx.
  apply elem_of_app in Hx as [Hx|Hx]; apply elem_of_app; [by left|].
  apply elem_of_cons in Hx as [->|Hx]; [done|by right].
Qed.

(** Entering the loop at index [j] with nothing in flight. *)
Lemma Phase_loopHead now q j fs st p :
  (∀ g, g ∈ fs → status g = QUEUED → id g ∈ map id (drop j q)) →
  (∀ g, g ∈ fs → status g ≠ PROCESSING) →
  Phase (loopHead now q j (mkApp fs st true p)).
Proof.
  intros Hq Hp. unfold loopHead. cbn [files stats isProcessing].
  destruct (decide (j < length q)) as [Hj|Hj];
    split; cbn [files pc isProcessing waitingOf pendingOf].
  - split; [discriminate|done].
  - intros g (x & Hx & ->)%elem_of_foldl_startFile.
    case_decide as Hin; [cbn; discriminate|].
    intros Hst. specialize (Hq x Hx Hst).
    rewrite <- slice_drop, map_app in Hq.
    by apply elem_of_app in Hq as [?|?].
  - intros g (x & Hx & ->)%elem_of_foldl_startFile.
    case_decide as Hin; [done|].
    intros Hst. by destruct (Hp x Hx).
  - done.
  - split; [discriminate|done].
  - intros g Hg Hst. specialize (Hq g Hg Hst). by rewrite drop_ge in Hq by lia.
  - intros g Hg Hst. by destruct (Hp g Hg).
  - done.
Qed.

Lemma Phase_step e s s' : Phase s → step host e s = Some s' → Phase s'.
Proof.
  intros [Hflag Hq Hp Hpend] Hstep.
  destruct e as [new|i| |now|k| |now]; cbn in Hstep.
  - case_decide; [|discriminate]. injection Hstep as <-.
    split; cbn [files pc isProcessing]; try done.
    + intros g [Hg|Hg]%elem_of_app; [by apply Hq|].
      change (g ∈ newFileData <$> new) in Hg.
      by apply list_elem_of_fmap in Hg as ([[??]?] & -> & _).
    + intros g [Hg|Hg]%elem_of_app; [by apply Hp|].
      change (g ∈ newFileData <$> new) in Hg.
      by apply list_elem_of_fmap in Hg as ([[??]?] & -> & _).
  - injection Hstep as <-. split; cbn [files pc isProcessing]; try done.
    + intros g [_ Hg]%list_elem_of_filter. by apply Hq.
    + intros g [_ Hg]%list_elem_of_filter. by apply Hp.
  - destruct (hasFiles s && negb (isProcessing s)); [|discriminate].
    injection Hstep as <-. split; cbn [files pc isProcessing]; try done;
      intros g Hg; by apply elem_of_nil in Hg.
  - destruct (pc s) eqn:Hpc; try discriminate.
    destruct (hasFiles s && negb (isProcessing s) && negb (isAllCompleted s));
      [|discriminate].
    injection Hstep as <-. unfold processQueue. apply Phase_loopHead.
    + intros g (x & Hx & ->)%elem_of_map_markQueued. unfold markQueued.
      case_decide as Hst.
      * intros _. rewrite drop_0, spread_id. apply elem_of_ids. exists x.
        split; [|done]. apply list_elem_of_filter. split; [by left|done].
      * intros Hst'. specialize (Hq x Hx Hst'). by apply elem_of_nil in Hq.
    + intros g (x & Hx & ->)%elem_of_map_markQueued. unfold markQueued.
      case_decide as Hst; [cbn; discriminate|].
      intros Hst'. specialize (Hp x Hx Hst'). by apply elem_of_nil in Hp.
  - destruct (pc s) as [|q i pending|] eqn:Hpc; try discriminate.
    destruct (pending !! k) as [f|] eqn:Hk; [|discriminate].
    injection Hstep as <-. cbn [waitingOf pendingOf] in *.
    assert (isProcessing (settleFile host f s) = isProcessing s) as Hb
      by (unfold settleFile; by destruct (convertImageToPDF host f)).
    assert (∀ g, g ∈ files (settleFile host f s) →
              (g ∈ files s ∧ id g ≠ id f) ∨
              (id g = id f ∧ (status g = COMPLETED ∨ status g = ERROR))) as Hcases.
    { unfold settleFile. destruct (convertImageToPDF host f); cbn [files];
        intros g (x & Hx & ->)%elem_of_updateFileStatus;
        (case_decide as Hid; [right|by left]);
        (split; [by rewrite spread_id|cbn; tauto]). }
    split; cbn [files pc isProcessing waitingOf pendingOf].
    + rewrite Hb. split; [discriminate|]. intros _. by apply Hflag.
    + intros g Hg Hst. destruct (Hcases g Hg) as [[Hin _]|[_ [?|?]]];
        [by apply Hq|congruence|congruence].
    + intros g Hg Hst. destruct (Hcases g Hg) as [[Hin Hne]|[_ [?|?]]];
        [|congruence|congruence].
      specialize (Hp g Hin Hst). apply elem_of_ids in Hp as (y & Hy & Heq).
      apply elem_of_ids. exists y. split; [|done].
      apply (elem_of_delete_other pending k f y Hk Hy). congruence.
    + etrans; [apply sublist_delete|done].
  - destruct (pc s) as [|q i [|]|] eqn:Hpc; try discriminate.
    injection Hstep as <-. split; cbn [files pc isProcessing waitingOf pendingOf];
      try done.
    split; [discriminate|]. intros _. by apply Hflag.
  - destruct (pc s) as [| |q i] eqn:Hpc; try discriminate.
    injection Hstep as <-. destruct s as [fs st b p]. cbn in *. subst p.
    assert (b = true) as -> by (by apply Hflag).
    apply Phase_loopHead; [done|].
    intros g Hg Hst. specialize (Hp g Hg Hst). by apply elem_of_nil in Hp.
Qed.

Lemma Phase_exec evs s s' : Phase s → exec host evs s = Some s' → Phase s'.
Proof.
  revert s. induction evs as [|e evs IH]; intros s HP Hex; cbn in Hex.
  - by injection Hex as <-.
  - destruct (step host e s) as [s1|] eqn:Hstep; [|discriminate].
    eapply IH; [|exact Hex]. by eapply Phase_step.
Qed.

End PhaseFacts.

(** ** What holds in every reachable state *)

Section ReachableFacts.
Context (host : Host).

Lemma reachable_inv evs s :
  exec host evs initialApp = Some s → Inv s ∧ Phase s.
Proof.
  intros Hex. split.
  - by apply (Inv_exec host evs initialApp s Inv_initial).
  - by apply (Phase_exec host evs initialApp s Phase_initial).
Qed.

Lemma Phase_stopped s : Phase s → isProcessing s = false → pc s = Stopped.
Proof.
  intros [Hflag _ _ _] Hb. destruct (pc s) eqn:Hpc; [done| |];
    (assert (isProcessing s = true) by (by apply Hflag); congruence).
Qed.

Lemma filter_all {A} (P : A → Prop) `{!∀ x, Decision (P x)} (l : list A) :
  Forall P l → filter P l = l.
Proof.
  induction 1 as [|x l Hx _ IH]; [done|]. by rewrite filter_cons, decide_True, IH.
Qed.

Lemma filter_none {A} (P : A → Prop) `{!∀ x, Decision (P x)} (l : list A) :
  Forall (λ x, ¬ P x) l → filter P l = [].
Proof.
  induction 1 as [|x l Hx _ IH]; [done|]. by rewrite filter_cons, decide_False, IH.
Qed.

Lemma length_filter_all {A} (P : A → Prop) `{!∀ x, Decision (P x)} (l : list A) :
  length (filter P l) = length l → Forall P l.
Proof.
  induction l as [|x l IH]; [constructor|].
  rewrite filter_cons. destruct (decide (P x)) as [Hx|Hx]; cbn.
  - intros [= Hlen]. constructor; [done|by apply IH].
  - intros Hlen. pose proof (length_filter P l). lia.
Qed.

End ReachableFacts.

(** X1.  While no run is active, no item of the store is QUEUED or
    PROCESSING: every item is IDLE, COMPLETED or ERROR. *)
Theorem no_item_in_flight_when_stopped (host : Host) (evs : list Event) (s : App)
    (f : FileData) :
  exec host evs initialApp = Some s →
  isProcessing s = false →
  f ∈ files s →
  status f = IDLE ∨ status f = COMPLETED ∨ status f = ERROR.
Proof.
  intros Hex Hb Hf. destruct (reachable_inv host evs s Hex) as [_ HP].
  pose proof (Phase_stopped s HP Hb) as Hpc.
  destruct HP as [_ Hq Hp _]. rewrite Hpc in Hq, Hp.
  destruct (status f) eqn:Hst; try tauto.
  - specialize (Hq f Hf Hst). by apply elem_of_nil in Hq.
  - specialize (Hp f Hf Hst). by apply elem_of_nil in Hp.
Qed.

Lemma no_item_in_flight_when_stopped_witness :
  exec Sample.host SampleRuns.failedOnce initialApp = Some SampleRuns.afterFailedRun ∧
  (status SampleRuns.corruptFailed = IDLE ∨ status SampleRuns.corruptFailed = COMPLETED
   ∨ status SampleRuns.corruptFailed = ERROR).
Proof.
  assert (exec Sample.host SampleRuns.failedOnce initialApp
          = Some SampleRuns.afterFailedRun) as Hex by reflexivity.
  split; [exact Hex|].
  apply (no_item_in_flight_when_stopped Sample.host SampleRuns.failedOnce
           SampleRuns.afterFailedRun SampleRuns.corruptFailed Hex);
    [reflexivity|apply list_elem_of_here].
Defined.

(** X2.  In every reachable state the run flag tells whether a run is
    suspended, the PROCESSING items are pending members of the current
    batch, and at most [BATCH_SIZE] items of the store are PROCESSING. *)
Theorem at_most_batch_size_in_progress (host : Host) (evs : list Event) (s : App) :
  exec host evs initialApp = Some s →
  (isProcessing s = true ↔ pc s ≠ Stopped) ∧
  (∀ f, f ∈ files s → status f = PROCESSING → id f ∈ map id (pendingOf (pc s))) ∧
  length (pendingOf (pc s)) ≤ BATCH_SIZE ∧
  length (filter (λ f, status f = PROCESSING) (files s)) ≤ BATCH_SIZE.
Proof.
  intros Hex. destruct (reachable_inv host evs s Hex) as [HI HP].
  destruct HI as [Hids _ _ _ _], HP as [Hflag _ Hp Hpend].
  assert (length (pendingOf (pc s)) ≤ BATCH_SIZE) as Hlen.
  { destruct (pc s) as [|q i pending|]; cbn; [unfold BATCH_SIZE; lia| |unfold BATCH_SIZE; lia].
    apply sublist_length in Hpend. rewrite length_slice in Hpend. lia. }
  split; [done|]. split; [done|]. split; [done|].
  etrans; [|exact Hlen].
  rewrite <- (length_map id (filter _ _)), <- (length_map id (pendingOf _)).
  apply submseteq_length, NoDup_submseteq.
  - eapply sublist_NoDup; [exact Hids|].
    change (map id ?l) with (id <$> l). apply fmap_sublist, sublist_filter.
  - intros i (f & [Hst Hf]%list_elem_of_filter & <-)%elem_of_ids. by apply Hp.
Qed.

Lemma at_most_batch_size_in_progress_witness :
  exec Sample.host [FilesAdded Sample.twelve; ConvertAll 0] initialApp
    = Some (processQueue 0 SampleRuns.loaded) ∧
  length (filter (λ f, status f = PROCESSING) (files (processQueue 0 SampleRuns.loaded)))
    ≤ BATCH_SIZE.
Proof.
  assert (exec Sample.host [FilesAdded Sample.twelve; ConvertAll 0] initialApp
          = Some (processQueue 0 SampleRuns.loaded)) as Hex by reflexivity.
  split; [exact Hex|].
  apply (at_most_batch_size_in_progress Sample.host _ _ Hex).
Defined.

(** X3.  In a reachable state the convert button is shown exactly when no
    run is active and some item is IDLE or ERROR; a click on it then starts
    the first batch of a non-empty queue and raises the run flag. *)
Theorem convert_shown_iff_work (host : Host) (evs : list Event) (s : App) :
  exec host evs initialApp = Some s →
  (convertShown s = true ↔
   isProcessing s = false ∧ filter eligible (files s) ≠ []) ∧
  (convertShown s = true → ∀ now,
     step host (ConvertAll now) s = Some (processQueue now s) ∧
     isProcessing (processQueue now s) = true ∧
     pc (processQueue now s)
       = Awaiting (filter eligible (files s)) 0
           (slice 0 BATCH_SIZE (filter eligible (files s))) ∧
     slice 0 BATCH_SIZE (filter eligible (files s)) ≠ []).
Proof.
  intros Hex. destruct (reachable_inv host evs s Hex) as [_ HP].
  assert (convertShown s = true ↔
          isProcessing s = false ∧ filter eligible (files s) ≠ []) as Hiff.
  { unfold convertShown, isAllCompleted, hasFiles, completedCount.
    destruct (isProcessing s) eqn:Hb.
    { rewrite andb_false_r. cbn. split; [discriminate|by intros [? _]]. }
    rewrite andb_true_r.
    assert (∀ f, f ∈ files s → status f = IDLE ∨ status f = COMPLETED ∨ status f = ERROR)
      as Hst by (intros f; by apply (no_item_in_flight_when_stopped host evs s f Hex)).
    split.
    - intros Hshown. split; [done|]. intros Hnil.
      apply andb_true_iff in Hshown as [Hhas Hnot].
      rewrite Hhas in Hnot. cbn in Hnot. apply negb_true_iff in Hnot.
      apply bool_decide_eq_false in Hnot. apply Hnot.
      rewrite filter_all; [done|]. apply Forall_forall. intros f Hf.
      destruct (Hst f Hf) as [Hi|[?|He]]; [|done|].
      + assert (f ∈ filter eligible (files s)) as Hin
          by (apply list_elem_of_filter; split; [by left|done]).
        rewrite Hnil in Hin. by apply elem_of_nil in Hin.
      + assert (f ∈ filter eligible (files s)) as Hin
          by (apply list_elem_of_filter; split; [by right|done]).
        rewrite Hnil in Hin. by apply elem_of_nil in Hin.
    - intros [_ Hne].
      destruct (filter eligible (files s)) as [|f l] eqn:Hq; [done|].
      assert (f ∈ filter eligible (files s)) as [Hel Hf]%list_elem_of_filter
        by (rewrite Hq; apply list_elem_of_here).
      assert (0 < length (files s)) as Hlen.
      { destruct (files s); [by apply elem_of_nil in Hf|cbn; lia]. }
      rewrite (bool_decide_eq_true_2 _ Hlen). cbn.
      apply negb_true_iff, bool_decide_eq_false. intros Hall.
      apply length_filter_all in Hall. rewrite Forall_forall in Hall.
      specialize (Hall f Hf). destruct Hel; congruence. }
  split; [exact Hiff|].
  intros Hshown now. apply Hiff in Hshown as Hwork. destruct Hwork as [Hb Hne].
  pose proof (Phase_stopped s HP Hb) as Hpc.
  assert (0 < length (filter eligible (files s))) as Hlen.
  { destruct (filter eligible (files s)); [done|cbn; lia]. }
  split; [|split; [|split]].
  - cbn. rewrite Hpc. fold (convertShown s). by rewrite Hshown.
  - unfold processQueue, loopHead. by rewrite decide_True.
  - unfold processQueue, loopHead. by rewrite decide_True.
  - destruct (filter eligible (files s)); [done|discriminate].
Qed.

Lemma convert_shown_iff_work_witness :
  exec Sample.host SampleRuns.failedOnce initialApp = Some SampleRuns.afterFailedRun ∧
  convertShown SampleRuns.afterFailedRun = true ∧
  step Sample.host (ConvertAll 2) SampleRuns.afterFailedRun
    = Some (processQueue 2 SampleRuns.afterFailedRun).
Proof.
  assert (exec Sample.host SampleRuns.failedOnce initialApp
          = Some SampleRuns.afterFailedRun) as Hex by reflexivity.
  split; [exact Hex|]. split; [reflexivity|].
  destruct (convert_shown_iff_work Sample.host _ _ Hex) as [_ Hclick].
  by destruct (Hclick eq_refl 2%Z) as [Hstep _].
Defined.

(** X4.  In a reachable state a click on "Clear Queue" brings the
    application back to its initial state. *)
Theorem clear_all_resets (host : Host) (evs : list Event) (s s' : App) :
  exec host evs initialApp = Some s →
  step host ClearAll s = Some s' →
  s' = initialApp.
Proof.
  intros Hex Hstep. destruct (reachable_inv host evs s Hex) as [_ HP].
  cbn in Hstep. destruct (hasFiles s); [|discriminate].
  destruct (isProcessing s) eqn:Hb; [discriminate|].
  cbn in Hstep. injection Hstep as <-.
  by rewrite (Phase_stopped s HP Hb).
Qed.

Lemma clear_all_resets_witness :
  exec Sample.host SampleRuns.failedOnce initialApp = Some SampleRuns.afterFailedRun ∧
  ∃ s', step Sample.host ClearAll SampleRuns.afterFailedRun = Some s' ∧ s' = initialApp.
Proof.
  assert (exec Sample.host SampleRuns.failedOnce initialApp
          = Some SampleRuns.afterFailedRun) as Hex by reflexivity.
  split; [exact Hex|]. eexists. split; [reflexivity|].
  apply (clear_all_resets Sample.host _ _ _ Hex). reflexivity.
Defined.

Section StoreHandlers.
Context (host : Host).

Lemma filter_ext_elem {A} (P Q : A → Prop) `{!∀ x, Decision (P x)}
    `{!∀ x, Decision (Q x)} (l : list A) :
  (∀ x, x ∈ l → P x ↔ Q x) → filter P l = filter Q l.
Proof.
  induction l as [|x l IH]; intros Hext; [done|].
  rewrite !filter_cons.
  assert (filter P l = filter Q l) as ->
    by (apply IH; intros y Hy; apply Hext; by apply list_elem_of_further).
  pose proof (Hext x (list_elem_of_here _ _)) as Hx.
  destruct (decide (P x)), (decide (Q x)); tauto.
Qed.

Lemma filter_ids_middle (l1 l2 : list FileData) f :
  NoDup (map id (l1 ++ f :: l2)) →
  filter (λ g, id g ≠ id f) (l1 ++ f :: l2) = l1 ++ l2.
Proof.
  intros Hnd. pose proof (NoDup_ids_middle l1 l2 f Hnd) as Hout.
  rewrite filter_app, filter_cons, decide_False by (by intros ?).
  rewrite <- filter_app. apply filter_all. apply Forall_forall.
  intros g Hg Heq. apply Hout, elem_of_ids. by exists g.
Qed.

End StoreHandlers.

(** X5.  In a reachable state the check of [handleDownloadZip] for a present
    artifact never excludes a COMPLETED item: the items handed to the
    packager are the COMPLETED ones, as many as the download button
    announces.  When that button is shown the handler does not return at
    its guard, and it saves the archive of these items when the archiver
    succeeds. *)
Theorem download_shown_builds_archive (host : Host) (evs : list Event) (s : App) :
  exec host evs initialApp = Some s →
  downloadShown s = true →
  filter completedWithBlob (files s) = filter (λ f, status f = COMPLETED) (files s) ∧
  length (filter completedWithBlob (files s)) = completedCount s ∧
  handleDownloadZip host s ≠ NoDownload ∧
  (zipWritable host (zipOfFiles (filter completedWithBlob (files s))) = true →
   handleDownloadZip host s
   = Saved (zipOfFiles (filter completedWithBlob (files s))) "converted_pdfs.zip").
Proof.
  intros Hex Hshown. destruct (reachable_inv host evs s Hex) as [[_ Hblob _ _ _] _].
  assert (filter completedWithBlob (files s)
          = filter (λ f, status f = COMPLETED) (files s)) as Heq.
  { apply filter_ext_elem. intros f Hf. unfold completedWithBlob.
    specialize (Hblob f Hf). tauto. }
  apply andb_true_iff in Hshown as [Hcount _]. apply bool_decide_eq_true in Hcount.
  assert (length (filter completedWithBlob (files s)) = completedCount s) as Hlen
    by (by rewrite Heq).
  split; [done|]. split; [done|].
  unfold handleDownloadZip, createZipFromFiles.
  destruct (decide (length (filter completedWithBlob (files s)) = 0)) as [Hz|_]; [lia|].
  split.
  - by destruct (zipWritable host _).
  - by intros ->.
Qed.

Lemma download_shown_builds_archive_witness :
  exec Sample.host SampleRuns.mixedEvents initialApp = Some SampleRuns.mixed ∧
  downloadShown SampleRuns.mixed = true ∧
  length (filter completedWithBlob (files SampleRuns.mixed)) = 1 ∧
  handleDownloadZip Sample.host SampleRuns.mixed ≠ NoDownload.
Proof.
  assert (exec Sample.host SampleRuns.mixedEvents initialApp = Some SampleRuns.mixed)
    as Hex by reflexivity.
  destruct (download_shown_builds_archive Sample.host _ _ Hex eq_refl)
    as (_ & Hlen & Hno & _).
  split; [exact Hex|]. split; [reflexivity|]. split; [|exact Hno].
  rewrite Hlen. reflexivity.
Defined.

(** X6.  In a reachable state [handleRemoveFile] with an id that no item
    carries changes nothing, and with the id of an item it takes exactly that
    item out: the items before and after it stay, in order, and statistics
    and run are untouched. *)
Theorem remove_file_removes_one (host : Host) (evs : list Event) (s : App)
    (i : string) :
  exec host evs initialApp = Some s →
  (i ∉ map id (files s) → step host (RemoveFile i) s = Some s) ∧
  (∀ l1 f l2, files s = l1 ++ f :: l2 → id f = i →
     step host (RemoveFile i) s
     = Some (mkApp (l1 ++ l2) (stats s) (isProcessing s) (pc s))).
Proof.
  intros Hex. destruct (reachable_inv host evs s Hex) as [[Hids _ _ _ _] _].
  split.
  - intros Hout. cbn. destruct s as [fs st b p]. cbn in *. f_equal. f_equal.
    apply filter_all, Forall_forall. intros g Hg Heq. apply Hout, elem_of_ids.
    by exists g.
  - intros l1 f l2 Hfiles <-. cbn. rewrite Hfiles in Hids |- *.
    by rewrite filter_ids_middle.
Qed.

Lemma remove_file_removes_one_witness :
  exec Sample.host SampleRuns.mixedEvents initialApp = Some SampleRuns.mixed ∧
  step Sample.host (RemoveFile "id-99") SampleRuns.mixed = Some SampleRuns.mixed ∧
  ∃ s', step Sample.host (RemoveFile "id-01") SampleRuns.mixed = Some s' ∧
        map id (files s') = ["id-02"].
Proof.
  assert (exec Sample.host SampleRuns.mixedEvents initialApp = Some SampleRuns.mixed)
    as Hex by reflexivity.
  destruct (remove_file_removes_one Sample.host _ _ "id-01" Hex) as [_ Hin].
  destruct (remove_file_removes_one Sample.host _ _ "id-99" Hex) as [Hout _].
  split; [exact Hex|]. split.
  - apply Hout. vm_compute.
    by intros [?|[?|?%elem_of_nil]%elem_of_cons]%elem_of_cons.
  - eexists. split.
    + apply (Hin [] SampleRuns.convertedItem
               [newFileData (Sample.jpeg 2)]); reflexivity.
    + reflexivity.
Defined.

(** X7.  Adding one file and removing it again by its id gives back the
    state before. *)
Theorem add_then_remove (host : Host) (s s1 : App) (i url : string) (f : File) :
  step host (FilesAdded [(i, url, f)]) s = Some s1 →
  step host (RemoveFile i) s1 = Some s.
Proof.
  cbn. case_decide as Hfresh; [|discriminate]. intros [= <-]. cbn.
  destruct Hfresh as [_ Hnew]. apply Forall_inv in Hnew.
  destruct s as [fs st b p]. cbn in *. f_equal. f_equal.
  rewrite filter_app, filter_cons, decide_False, filter_nil, app_nil_r by (by intros ?).
  apply filter_all, Forall_forall. intros g Hg Heq. apply Hnew.
  unfold usedIds. cbn. apply elem_of_app. left. apply elem_of_ids. by exists g.
Qed.

Lemma add_then_remove_witness :
  ∃ s1, step Sample.host (FilesAdded [Sample.jpeg 7]) SampleRuns.afterFailedRun = Some s1 ∧
        step Sample.host (RemoveFile "id-07") s1 = Some SampleRuns.afterFailedRun.
Proof.
  eexists. split; [reflexivity|].
  apply (add_then_remove Sample.host SampleRuns.afterFailedRun _ "id-07"
           "blob:jpeg-07" (mkFile "photo07.jpg" "image/jpeg" Sample.jpegBytes)).
  reflexivity.
Defined.

(** X8.  The counters of a run.  At every point of a run, whatever is added
    to or removed from the store meanwhile: [total] is the size of the store
    at the click; [processed] counts the queue members that are neither
    pending nor in a later batch; [success] and [failed] have grown, taken
    together, by [processed], [success] by the settled members that convert
    and [failed] by those that do not.  When both were zero at the click,
    [processed = success + failed ≤ total]. *)
Theorem run_counters_track_settlements (host : Host) (s s1 : App) (now : Z)
    (evs : list Event) (s' : App) :
  step host (ConvertAll now) s = Some s1 →
  Forall duringRun evs →
  exec host evs s1 = Some s' →
  let q := filter eligible (files s) in
  total (stats s') = length (files s) ∧
  processed (stats s') + length (todo (pc s')) = length q ∧
  success (stats s') + countOk host (todo (pc s')) = success (stats s) + countOk host q ∧
  failed (stats s') + countFailed host (todo (pc s'))
    = failed (stats s) + countFailed host q ∧
  success (stats s') + failed (stats s')
    = success (stats s) + failed (stats s) + processed (stats s') ∧
  (success (stats s) = 0 → failed (stats s) = 0 →
   processed (stats s') = success (stats s') + failed (stats s') ∧
   processed (stats s') ≤ total (stats s')).
Proof.
  intros [_ ->]%step_ConvertAll Hall Hex q.
  destruct (runStats_exec host q (stats s) (length (files s)) evs _ s' Hall Hex
              (runStats_processQueue host now s)) as (Ht & Hp & Hs & Hf).
  pose proof (count_total host (todo (pc s'))) as Htodo.
  pose proof (count_total host q) as Hq.
  pose proof (length_filter eligible (files s)) as Hle. fold q in Hle.
  repeat split; try done; lia.
Qed.

Lemma run_counters_track_settlements_witness :
  step Sample.host (ConvertAll 0) SampleRuns.loaded
    = Some (processQueue 0 SampleRuns.loaded) ∧
  exec Sample.host [Settled 0; Settled 0] (processQueue 0 SampleRuns.loaded)
    = Some MoreSamples.twoSettled ∧
  total (stats MoreSamples.twoSettled) = 12 ∧
  processed (stats MoreSamples.twoSettled) = 2 ∧
  length (todo (pc MoreSamples.twoSettled)) = 10.
Proof.
  assert (step Sample.host (ConvertAll 0) SampleRuns.loaded
          = Some (processQueue 0 SampleRuns.loaded)) as Hstep by reflexivity.
  assert (exec Sample.host [Settled 0; Settled 0] (processQueue 0 SampleRuns.loaded)
          = Some MoreSamples.twoSettled) as Hex by reflexivity.
  split; [exact Hstep|]. split; [exact Hex|].
  destruct (run_counters_track_settlements Sample.host SampleRuns.loaded
              (processQueue 0 SampleRuns.loaded) 0 [Settled 0; Settled 0]
              MoreSamples.twoSettled Hstep) as (Ht & Hp & _);
    [repeat constructor|exact Hex|].
  split; [exact Ht|]. split; reflexivity.
Defined.

(** ** Names: the drop zone and the packager *)

Section NameFacts.

Lemma substring_all (s : string) : substring 0 (String.length s) s = s.
Proof. induction s as [|c s IH]; [done|]. cbn. by rewrite IH. Qed.

Lemma substring_append_r (base ext : string) :
  substring (String.length base) (String.length ext) (base +:+ ext) = ext.
Proof.
  induction base as [|c base IH].
  - rewrite append_nil. apply substring_all.
  - rewrite append_String. cbn. exact IH.
Qed.

Lemma length_append_string (a b : string) :
  String.length (a +:+ b) = String.length a + String.length b.
Proof.
  induction a as [|c a IH]; [done|]. rewrite append_String. cbn. by rewrite IH.
Qed.

Lemma substring_split (n : nat) (s : string) :
  n ≤ String.length s →
  ∃ base, s = base +:+ substring n (String.length s - n) s.
Proof.
  revert s. induction n as [|n IH]; intros s Hn.
  - exists "". by rewrite Nat.sub_0_r, substring_all.
  - destruct s as [|c s]; [cbn in Hn; lia|]. cbn in Hn.
    destruct (IH s) as [base Hbase]; [lia|].
    exists (String c base). rewrite append_String. cbn. by rewrite <- Hbase.
Qed.

Lemma endsWith_spec (s ext : string) :
  endsWith s ext = true ↔ ∃ base, s = base +:+ ext.
Proof.
  unfold endsWith. split.
  - destruct (Nat.leb_spec (String.length ext) (String.length s)) as [Hle|]; [|done].
    intros Heq%String.eqb_eq.
    destruct (substring_split (String.length s - String.length ext) s) as [base Hbase];
      [lia|].
    exists base.
    replace (String.length s - (String.length s - String.length ext))
      with (String.length ext) in Hbase by lia.
    by rewrite Heq in Hbase.
  - intros [base ->]. rewrite length_append_string.
    destruct (Nat.leb_spec (String.length ext) (String.length base + String.length ext));
      [|lia].
    replace (String.length base + String.length ext - String.length ext)
      with (String.length base) by lia.
    rewrite substring_append_r. apply String.eqb_refl.
Qed.

Lemma toLowerCase_append (a b : string) :
  toLowerCase (a +:+ b) = toLowerCase a +:+ toLowerCase b.
Proof.
  induction a as [|c a IH]; [done|]. rewrite append_String. cbn [toLowerCase].
  by rewrite IH, append_String.
Qed.

Lemma toLowerCase_split (s a b : string) :
  toLowerCase s = a +:+ b →
  ∃ s1 s2, s = s1 +:+ s2 ∧ toLowerCase s1 = a ∧ toLowerCase s2 = b.
Proof.
  revert s. induction a as [|c a IH]; intros s.
  - rewrite append_nil. intros Hs. by exists "", s.
  - rewrite append_String. destruct s as [|d s]; [discriminate|].
    cbn [toLowerCase]. intros [= Hc Hs].
    destruct (IH s Hs) as (s1 & s2 & -> & <- & <-).
    exists (String d s1), s2. by rewrite append_String, <- Hc.
Qed.

(** Lower-casing neither makes nor removes a dot or a slash, and doing it
    twice is doing it once. *)
Lemma lowerAscii_table (c : ascii) :
  Ascii.eqb (lowerAscii c) "/" = Ascii.eqb c "/" ∧
  Ascii.eqb (lowerAscii c) "." = Ascii.eqb c "." ∧
  lowerAscii (lowerAscii c) = lowerAscii c.
Proof.
  destruct c as [[] [] [] [] [] [] [] []]; vm_compute; by repeat split.
Qed.

Lemma toLowerCase_idemp (s : string) : toLowerCase (toLowerCase s) = toLowerCase s.
Proof.
  induction s as [|c s IH]; [done|]. cbn.
  destruct (lowerAscii_table c) as (_ & _ & ->). by rewrite IH.
Qed.

Lemma extensionChars_toLowerCase (s : string) :
  extensionChars (toLowerCase s) = extensionChars s.
Proof.
  induction s as [|c s IH]; [done|]. cbn.
  destruct (lowerAscii_table c) as (-> & -> & _). by rewrite IH.
Qed.

Lemma lower_extension (ext target : string) :
  toLowerCase ext = String "." target → target ≠ "" → extensionChars target = true →
  ∃ e, ext = String "." e ∧ e ≠ "" ∧ extensionChars e = true.
Proof.
  destruct ext as [|c e]; [discriminate|]. cbn [toLowerCase].
  intros [= Hc He] Hne Hchars.
  destruct (lowerAscii_table c) as (_ & Hdot & _).
  rewrite Hc in Hdot. cbn in Hdot. symmetry in Hdot. apply Ascii.eqb_eq in Hdot as ->.
  exists e. split; [done|]. split.
  - intros ->. cbn in He. congruence.
  - by rewrite <- extensionChars_toLowerCase, He.
Qed.

End NameFacts.

(** X9.  [isValidFile] accepts a file exactly when its MIME type is
    [image/jpeg] or [image/jpg], or its name ends, in any mix of upper and
    lower case, with [.jpg] or [.jpeg]; the bytes of the file play no part
    and lower-casing the name changes nothing. *)
Theorem isValidFile_spec (f : File) :
  (isValidFile f = true ↔
   (type f = "image/jpeg" ∨ type f = "image/jpg") ∨
   ∃ base ext, name f = base +:+ ext ∧
               (toLowerCase ext = ".jpg" ∨ toLowerCase ext = ".jpeg")) ∧
  (∀ bytes, isValidFile (mkFile (toLowerCase (name f)) (type f) bytes) = isValidFile f).
Proof.
  assert (∀ n, existsb (λ ext, endsWith (toLowerCase n) ext) validExtensions = true ↔
               ∃ base ext, n = base +:+ ext ∧
                           (toLowerCase ext = ".jpg" ∨ toLowerCase ext = ".jpeg")) as Hext.
  { intros n. cbn. rewrite orb_false_r, orb_true_iff, !endsWith_spec. split.
    - intros [[b Hb]|[b Hb]]; apply toLowerCase_split in Hb as (s1 & s2 & -> & _ & Hs2);
        exists s1, s2; tauto.
    - intros (base & ext & -> & [He|He]); [left|right];
        exists (toLowerCase base); by rewrite toLowerCase_append, He. }
  split.
  - unfold isValidFile. rewrite orb_true_iff, Hext. cbn.
    rewrite orb_false_r, orb_true_iff, !String.eqb_eq. tauto.
  - intros bytes. unfold isValidFile. cbn [name type]. f_equal.
    cbn. by rewrite toLowerCase_idemp.
Qed.

(** X10.  A file whose name ends with [.jpg] or [.jpeg], in any case, is
    entered in the archive under the name without that extension, followed
    by [.pdf]. *)
Theorem accepted_extension_is_replaced (f : FileData) (base ext : string) :
  name (file f) = base +:+ ext →
  toLowerCase ext = ".jpg" ∨ toLowerCase ext = ".jpeg" →
  pdfName f = base +:+ ".pdf".
Proof.
  intros Hname Hext.
  assert (∃ e, ext = String "." e ∧ e ≠ "" ∧ extensionChars e = true)
    as (e & -> & Hne & Hchars)
    by (destruct Hext as [He|He]; by apply (lower_extension ext _ He)).
  unfold pdfName. by rewrite Hname, replaceExtension_strip.
Qed.

Lemma accepted_extension_is_replaced_witness :
  pdfName (newFileData ("id", "blob:x", mkFile "Holiday.2024.JPeG" "" [])) = "Holiday.2024.pdf".
Proof.
  apply (accepted_extension_is_replaced _ "Holiday.2024" ".JPeG"); [reflexivity|].
  by right.
Defined.

(** X11.  The replacement of [createZipFromFiles] removes a last extension
    and nothing else: either the name is some base followed by a dot and one
    or more characters other than [.] and [/], and the result is that base;
    or the name has no such ending and is returned as it is. *)
Theorem replaceExtension_spec (s : string) :
  (∃ base e, s = base +:+ String "." e ∧ e ≠ "" ∧ extensionChars e = true ∧
             replaceExtension s "" = base) ∨
  ((∀ base e, s = base +:+ String "." e → e = "" ∨ extensionChars e = false) ∧
   replaceExtension s "" = s).
Proof.
  induction s as [|c r IH].
  - right. split; [|done]. intros [|??] e; [rewrite append_nil|rewrite append_String];
      discriminate.
  - cbn [replaceExtension]. destruct (matchesExtension (String c r)) eqn:Hm.
    + left. cbn in Hm. apply andb_true_iff in Hm as [Hm Hchars].
      apply andb_true_iff in Hm as [Hc Hne]. apply Ascii.eqb_eq in Hc as ->.
      exists "", r. rewrite append_nil. repeat split; [|done].
      intros ->. discriminate.
    + destruct IH as [(base & e & -> & Hne & Hchars & Hr)|[Hno Hr]].
      * left. exists (String c base), e. by rewrite append_String, Hr.
      * right. split; [|by rewrite Hr].
        intros [|d base] e.
        -- rewrite append_nil. intros [= -> ->]. cbn in Hm.
           destruct (String.eqb_spec e ""); [by left|]. cbn in Hm. by right.
        -- rewrite append_String. intros [= -> ->]. by apply (Hno base e).
Qed.

Section ArchiveOrder.

Lemma NoDup_pdfName_eq (l : list FileData) f g :
  NoDup (map pdfName l) → f ∈ l → g ∈ l → pdfName f = pdfName g → f = g.
Proof.
  intros Hnd Hf Hg Heq.
  apply list_elem_of_lookup in Hf as [i Hi].
  apply list_elem_of_lookup in Hg as [j Hj].
  assert (i = j) as ->.
  { apply (NoDup_lookup (map pdfName l) i j (pdfName f)); [done| |].
    - change (map pdfName l) with (pdfName <$> l). by rewrite list_lookup_fmap, Hi.
    - change (map pdfName l) with (pdfName <$> l). by rewrite list_lookup_fmap, Hj, Heq. }
  congruence.
Qed.

Lemma zipOfFiles_lookup_NoDup (l : list FileData) k e :
  NoDup (map pdfName l) →
  zipOfFiles l !! k = Some e ↔
  (k = zipRoot ∧ e = JSZip.Folder) ∨
  ∃ f b, f ∈ l ∧ pdfBlob f = Some b ∧ k = entryPath f ∧ e = JSZip.Document b.
Proof.
  intros Hnd. split; [apply zipOfFiles_entries|].
  intros [[-> ->]|(f & b & Hf & Hb & -> & ->)]; [apply zipOfFiles_folder|].
  destruct (zipOfFiles_complete l f Hf) as (g & b' & Hg & Hname & Hb' & Hl);
    [by rewrite Hb|].
  rewrite (NoDup_pdfName_eq l g f Hnd Hg Hf Hname) in Hb'. congruence.
Qed.

End ArchiveOrder.

(** X12.  When the items have pairwise distinct archive names, the archive
    does not depend on the order in which they are handed to the
    packager. *)
Theorem archive_order_irrelevant (l1 l2 : list FileData) :
  l1 ≡ₚ l2 → NoDup (map pdfName l1) → zipOfFiles l1 = zipOfFiles l2.
Proof.
  intros Hperm Hnd1.
  assert (NoDup (map pdfName l2)) as Hnd2.
  { change (NoDup (pdfName <$> l2)). by rewrite <- Hperm. }
  apply map_eq. intros k. apply option_eq. intros e.
  rewrite !zipOfFiles_lookup_NoDup by done.
  split; (intros [?|(f & b & Hf & ?)]; [by left|right; exists f, b; split; [|done]]).
  - by rewrite <- Hperm.
  - by rewrite Hperm.
Qed.

Lemma archive_order_irrelevant_witness :
  zipOfFiles (files SampleRuns.finished) = zipOfFiles (reverse (files SampleRuns.finished)).
Proof.
  apply archive_order_irrelevant; [by rewrite reverse_Permutation|].
  apply (bool_decide_unpack (NoDup (map pdfName (files SampleRuns.finished)))).
  vm_compute. exact I.
Defined.

(** ** The mounted application *)

Section UiFacts.
Context (host : Host).

(** A step of the model never changes the [File] of an item; new [File]s come
    with [FilesAdded] only. *)
Lemma step_file_origin e s s' g :
  step host e s = Some s' → g ∈ files s' →
  (∃ x, x ∈ files s ∧ file g = file x) ∨
  (∃ new x, e = FilesAdded new ∧ x ∈ new ∧ file g = x.2).
Proof.
  assert (∀ now q j s0 g0, g0 ∈ files (loopHead now q j s0) →
            ∃ x, x ∈ files s0 ∧ file g0 = file x) as Hloop.
  { intros now q j s0 g0. unfold loopHead. case_decide; cbn [files]; [|eauto].
    intros (x & Hx & ->)%elem_of_foldl_startFile. exists x. split; [done|].
    by case_decide. }
  intros Hstep Hg. destruct e as [new|i| |now|k| |now]; cbn in Hstep.
  - case_decide; [|discriminate]. injection Hstep as <-. cbn [files] in Hg.
    apply elem_of_app in Hg as [Hg|Hg]; [left; eauto|].
    right. change (g ∈ newFileData <$> new) in Hg.
    apply list_elem_of_fmap in Hg as ([[i u] f] & -> & Hx). by exists new, (i, u, f).
  - injection Hstep as <-. apply list_elem_of_filter in Hg as [_ Hg]. left. eauto.
  - destruct (hasFiles s && negb (isProcessing s)); [|discriminate].
    injection Hstep as <-. by apply elem_of_nil in Hg.
  - destruct (pc s); try discriminate.
    destruct (hasFiles s && negb (isProcessing s) && negb (isAllCompleted s));
      [|discriminate].
    injection Hstep as <-. unfold processQueue in Hg.
    apply Hloop in Hg as (x & Hx & ->). cbn [files] in Hx.
    apply elem_of_map_markQueued in Hx as (y & Hy & ->). left. exists y.
    split; [done|]. unfold markQueued. by case_decide.
  - destruct (pc s) as [|q i pending|]; try discriminate.
    destruct (pending !! k) as [f|]; [|discriminate].
    injection Hstep as <-. cbn [files] in Hg. left. unfold settleFile in Hg.
    destruct (convertImageToPDF host f); cbn [files] in Hg;
      apply elem_of_updateFileStatus in Hg as (x & Hx & ->);
      exists x; (split; [done|]); by case_decide.
  - destruct (pc s) as [|q i [|]|]; try discriminate.
    injection Hstep as <-. left. eauto.
  - destruct (pc s) as [| |q i]; try discriminate.
    injection Hstep as <-. left. by apply Hloop in Hg.
Qed.

(** A step of the model never makes an item IDLE. *)
Lemma step_no_new_idle e s s' g :
  step host e s = Some s' → (∀ new, e ≠ FilesAdded new) →
  g ∈ files s' → status g = IDLE → ∃ x, x ∈ files s ∧ status x = IDLE ∧
    (∀ now, e ≠ ConvertAll now).
Proof.
  assert (∀ now q j s0 g0, g0 ∈ files (loopHead now q j s0) → status g0 = IDLE →
            g0 ∈ files s0) as Hloop.
  { intros now q j s0 g0. unfold loopHead. case_decide; cbn [files]; [|done].
    intros (x & Hx & ->)%elem_of_foldl_startFile. by case_decide. }
  intros Hstep Hne Hg Hst. destruct e as [new|i| |now|k| |now]; cbn in Hstep.
  - by destruct (Hne new).
  - injection Hstep as <-. apply list_elem_of_filter in Hg as [_ Hg]. eauto.
  - destruct (hasFiles s && negb (isProcessing s)); [|discriminate].
    injection Hstep as <-. by apply elem_of_nil in Hg.
  - destruct (pc s); try discriminate.
    destruct (hasFiles s && negb (isProcessing s) && negb (isAllCompleted s));
      [|discriminate].
    injection Hstep as <-. unfold processQueue in Hg.
    apply Hloop in Hg; [|done]. cbn [files] in Hg.
    apply elem_of_map_markQueued in Hg as (y & Hy & ->).
    unfold markQueued in Hst. by case_decide.
  - destruct (pc s) as [|q i pending|]; try discriminate.
    destruct (pending !! k) as [f|]; [|discriminate].
    injection Hstep as <-. cbn [files] in Hg. unfold settleFile in Hg.
    destruct (convertImageToPDF host f); cbn [files] in Hg;
      apply elem_of_updateFileStatus in Hg as (x & Hx & ->);
      (case_decide; [discriminate|]); eauto.
  - destruct (pc s) as [|q i [|]|]; try discriminate.
    injection Hstep as <-. eauto.
  - destruct (pc s) as [| |q i]; try discriminate.
    injection Hstep as <-. apply Hloop in Hg; eauto.
Qed.

Lemma elem_of_withDrawn drawn kept x :
  x ∈ withDrawn drawn kept → x.2 ∈ kept.
Proof.
  unfold withDrawn. intros (d & f & -> & _ & Hf)%elem_of_zip_with. done.
Qed.

Lemma elem_of_List_filter {A} (p : A → bool) (l : list A) x :
  x ∈ List.filter p l → p x = true.
Proof. rewrite list_elem_of_In, filter_In. by intros [_ ?]. Qed.

Lemma handleDrop_valid disabled dropped kept f :
  handleDrop disabled dropped = Some kept → f ∈ kept → isValidFile f = true.
Proof.
  unfold handleDrop. destruct disabled; [discriminate|].
  case_decide; [|discriminate]. intros [= <-]. apply elem_of_List_filter.
Qed.

Lemma handleFileInput_valid selected kept f :
  handleFileInput selected = Some kept → f ∈ kept → isValidFile f = true.
Proof.
  unfold handleFileInput. case_decide; [|discriminate]. intros [= <-].
  apply elem_of_List_filter.
Qed.

(** What a UI step is in the model: nothing, or one step whose added files,
    if any, passed [isValidFile]. *)
Lemma uiStep_model e s s' :
  uiStep host e s = Some s' →
  s' = s ∨
  ∃ e', step host e' s = Some s' ∧
        (∀ new x, e' = FilesAdded new → x ∈ new → isValidFile x.2 = true) ∧
        (isProcessing s = true → ∃ a, e = Async a).
Proof.
  destruct e as [dropped drawn|selected drawn|i|now| |a]; cbn [uiStep].
  - destruct (handleDrop (isProcessing s) dropped) as [kept|] eqn:Hd;
      [|intros [= <-]; by left].
    unfold addKept. case_decide; [|discriminate]. intros Hstep. right.
    eexists. split; [exact Hstep|]. split.
    + intros new x [= <-] Hx%elem_of_withDrawn. by eapply handleDrop_valid.
    + intros Hb. rewrite Hb in Hd. discriminate.
  - destruct (isProcessing s) eqn:Hb; [discriminate|].
    destruct (handleFileInput selected) as [kept|] eqn:Hd;
      [|intros [= <-]; by left].
    unfold addKept. case_decide; [|discriminate]. intros Hstep. right.
    eexists. split; [exact Hstep|]. split; [|discriminate].
    intros new x [= <-] Hx%elem_of_withDrawn. by eapply handleFileInput_valid.
  - destruct (existsb _ (files s)) eqn:Hex; [|discriminate].
    intros Hstep. right. exists (RemoveFile i). split; [exact Hstep|].
    split; [discriminate|].
    intros Hb. apply existsb_exists in Hex as (f & _ & Hf).
    unfold removeShown in Hf. rewrite Hb in Hf. cbn in Hf.
    by rewrite andb_false_r in Hf.
  - intros Hstep. right. exists (ConvertAll now). split; [exact Hstep|].
    split; [discriminate|].
    intros Hb. cbn in Hstep. destruct (pc s); try discriminate.
    rewrite Hb, andb_false_r in Hstep. discriminate.
  - intros Hstep. right. exists ClearAll. split; [exact Hstep|].
    split; [discriminate|].
    intros Hb. cbn in Hstep. rewrite Hb, andb_false_r in Hstep. discriminate.
  - destruct (schedStep a) eqn:Ha; [|discriminate].
    intros Hstep. right. exists a. split; [exact Hstep|]. split; [|eauto].
    intros new x ->. discriminate.
Qed.

Lemma uiInv_initial : uiInv initialApp.
Proof.
  split; [apply Inv_initial|]. split; [apply Phase_initial|].
  split; [intros f Hf; by apply elem_of_nil in Hf|discriminate].
Qed.

Lemma uiInv_step e s s' : uiInv s → uiStep host e s = Some s' → uiInv s'.
Proof.
  intros (HI & HP & Hvalid & Hidle) Hstep.
  destruct (uiStep_model e s s' Hstep) as [->|(e' & Hstep' & Hnew & Hrun)]; [done|].
  split; [by eapply Inv_step|]. split; [by eapply Phase_step|]. split.
  - intros g Hg.
    destruct (step_file_origin e' s s' g Hstep' Hg) as [(x & Hx & ->)|(new & x & -> & Hx & ->)].
    + by apply Hvalid.
    + by eapply Hnew.
  - intros Hb' g Hg Hst.
    destruct (isProcessing s) eqn:Hb.
    + destruct (Hrun eq_refl) as [a ->]. cbn in Hstep.
      destruct (schedStep a) eqn:Ha; [|discriminate].
      destruct (step_no_new_idle a s s' g Hstep) as (x & Hx & Hxs & _); try done.
      { intros new ->. discriminate. }
      by apply (Hidle eq_refl x).
    + destruct e' as [new|i| |now|k| |now].
      * cbn in Hstep'. case_decide; [|discriminate]. injection Hstep' as <-.
        cbn in Hb'. congruence.
      * cbn in Hstep'. injection Hstep' as <-. cbn in Hb'. congruence.
      * cbn in Hstep'. destruct (hasFiles s && negb (isProcessing s)); [|discriminate].
        injection Hstep' as <-. cbn in Hb'. congruence.
      * destruct (step_no_new_idle (ConvertAll now) s s' g Hstep') as (_ & _ & _ & Hc);
          try done. by destruct (Hc now).
      * pose proof (Phase_stopped s HP Hb) as Hpc. cbn in Hstep'.
        rewrite Hpc in Hstep'. discriminate.
      * pose proof (Phase_stopped s HP Hb) as Hpc. cbn in Hstep'.
        rewrite Hpc in Hstep'. discriminate.
      * pose proof (Phase_stopped s HP Hb) as Hpc. cbn in Hstep'.
        rewrite Hpc in Hstep'. discriminate.
Qed.

Lemma uiInv_exec evs s s' : uiInv s → uiExec host evs s = Some s' → uiInv s'.
Proof.
  revert s. induction evs as [|e evs IH]; intros s HI Hex; cbn in Hex.
  - by injection Hex as <-.
  - destruct (uiStep host e s) as [s1|] eqn:Hstep; [|discriminate].
    eapply IH; [|exact Hex]. by eapply uiInv_step.
Qed.

End UiFacts.

(** ** The store in the course of a run *)

Section ProgressFacts.
Context (host : Host).

Lemma progressOf_id w p f : id (progressOf host w p f) = id f.
Proof.
  unfold progressOf, settled. repeat case_decide; try done.
  - apply markQueued_id.
  - by rewrite started_id, markQueued_id.
  - by destruct (convertImageToPDF host f).
Qed.

Lemma settle_started_markQueued (x : FileData) (u : Updates) :
  is_Some (u_status u) →
  spread (started (markQueued x)) u = spread x u.
Proof.
  intros [st Hst]. unfold spread, started, markQueued.
  case_decide; cbn; by rewrite Hst.
Qed.

Lemma todo_split p : todo p = pendingOf p ++ waitingOf p.
Proof. by destruct p. Qed.

(** The store right after the loop is entered at index [j]. *)
Lemma progress_loopHead now q j (F0 : list FileData) s :
  NoDup (map id F0) →
  (∀ x, x ∈ drop j q → x ∈ F0 ∧ eligible x) →
  NoDup (map id (drop j q)) →
  files s = map (progressOf host (drop j q) []) F0 →
  files (loopHead now q j s)
  = map (progressOf host (waitingOf (pc (loopHead now q j s)))
           (pendingOf (pc (loopHead now q j s)))) F0.
Proof.
  intros Hids Hq Hnd Hfiles. unfold loopHead.
  case_decide as Hj; cbn [files pc waitingOf pendingOf].
  - rewrite foldl_startFile, Hfiles, map_map. apply map_ext_in.
    intros f Hf%list_elem_of_In. rewrite progressOf_id.
    rewrite <- slice_drop, map_app in Hnd.
    apply NoDup_app in Hnd as (_ & Hdisj & _).
    unfold progressOf. rewrite <- (slice_drop q j), map_app.
    destruct (decide (id f ∈ map id (slice j (j + BATCH_SIZE) q))) as [Hin|Hout].
    + assert (eligible f) as Hel.
      { apply elem_of_ids in Hin as (x & Hx & Heq).
        assert (x ∈ drop j q) as Hxq
          by (rewrite <- slice_drop; apply elem_of_app; by left).
        destruct (Hq x Hxq) as [HxF Hxel].
        by rewrite <- (NoDup_ids_eq F0 x f Hids HxF Hf Heq). }
      rewrite (decide_True (P := eligible f)) by done.
      rewrite (decide_True (P := id f ∈ _ ++ _)) by (apply elem_of_app; by left).
      rewrite (decide_False (P := id f ∈ map id (drop _ q))) by (by apply Hdisj).
      by rewrite decide_True.
    + destruct (decide (eligible f)); [|done].
      destruct (decide (id f ∈ map id (drop (j + BATCH_SIZE) q))) as [Hw|Hw].
      * by rewrite decide_True by (apply elem_of_app; by right).
      * rewrite decide_False by (by intros [?|?]%elem_of_app).
        by rewrite (decide_False (P := id f ∈ map id [])) by apply not_elem_of_nil.
  - rewrite Hfiles. by rewrite !drop_ge by lia.
Qed.

Lemma progress_markQueued (F0 : list FileData) :
  map markQueued F0 = map (progressOf host (filter eligible F0) []) F0.
Proof.
  apply map_ext_in. intros f Hf%list_elem_of_In. unfold progressOf.
  destruct (decide (eligible f)) as [Hel|Hne].
  - rewrite decide_True; [done|]. apply elem_of_ids. exists f.
    split; [|done]. by apply list_elem_of_filter.
  - unfold markQueued. rewrite decide_False; [done|]. intros ?. apply Hne. by left.
Qed.

Lemma progress_step (F0 : list FileData) e s s' :
  NoDup (map id F0) →
  (∀ x, x ∈ todo (pc s) → x ∈ F0 ∧ eligible x) →
  NoDup (map id (todo (pc s))) →
  is_Some (schedStep e) →
  step host e s = Some s' →
  files s = map (progressOf host (waitingOf (pc s)) (pendingOf (pc s))) F0 →
  files s' = map (progressOf host (waitingOf (pc s')) (pendingOf (pc s'))) F0.
Proof.
  intros Hids Hsub Hnd [t Ht] Hstep Hfiles.
  destruct e as [new|i| |now|k| |now]; try discriminate; cbn in Hstep.
  - destruct (pc s) as [|q i pending|] eqn:Hpc; try discriminate.
    destruct (pending !! k) as [x|] eqn:Hk; [|discriminate].
    injection Hstep as <-. cbn [files pc waitingOf pendingOf todo] in *.
    assert (x ∈ pending) as Hxp by (by eapply list_elem_of_lookup_2).
    destruct (Hsub x) as [HxF Hxel]; [apply elem_of_app; by left|].
    assert (id x ∉ map id (delete k pending ++ drop (i + BATCH_SIZE) q)) as Hout.
    { rewrite delete_take_drop, <- app_assoc. apply NoDup_ids_middle.
      by rewrite app_comm_cons, app_assoc, take_drop_middle. }
    rewrite map_app in Hout.
    assert (files (settleFile host x s)
            = map (λ f, if decide (id f = id x) then settled host x
                        else progressOf host (drop (i + BATCH_SIZE) q) pending f) F0)
      as ->.
    { unfold settleFile, settled.
      destruct (convertImageToPDF host x) as [err|blob]; cbn [files];
        rewrite Hfiles; unfold updateFileStatus; rewrite map_map;
        apply map_ext_in; intros f Hf%list_elem_of_In; rewrite progressOf_id;
        (case_decide as Hid; [|done]);
        rewrite (NoDup_ids_eq F0 f x Hids Hf HxF Hid);
        unfold progressOf;
        rewrite (decide_True (P := eligible x)) by done;
        rewrite (decide_False (P := id x ∈ map id (drop _ q)))
          by (intros ?; apply Hout, elem_of_app; by right);
        rewrite (decide_True (P := id x ∈ map id pending))
          by (apply elem_of_ids; by exists x);
        by apply settle_started_markQueued. }
    apply map_ext_in. intros f Hf%list_elem_of_In. unfold progressOf.
    destruct (decide (id f = id x)) as [Hid|Hid].
    + rewrite (NoDup_ids_eq F0 f x Hids Hf HxF Hid).
      rewrite (decide_True (P := eligible x)) by done.
      rewrite (decide_False (P := id x ∈ map id (drop _ q)))
        by (intros ?; apply Hout, elem_of_app; by right).
      by rewrite (decide_False (P := id x ∈ map id (delete k pending)))
        by (intros ?; apply Hout, elem_of_app; by left).
    + destruct (decide (eligible f)); [|done].
      destruct (decide (id f ∈ map id (drop (i + BATCH_SIZE) q))); [done|].
      destruct (decide (id f ∈ map id pending)) as [Hin|Hnin].
      * rewrite decide_True; [done|].
        apply elem_of_ids in Hin as (y & Hy & Heq). apply elem_of_ids.
        exists y. split; [|done].
        apply (elem_of_delete_other pending k x y Hk Hy). congruence.
      * rewrite decide_False; [done|].
        intros (y & Hy & Heq)%elem_of_ids. apply Hnin, elem_of_ids.
        exists y. split; [|done]. eapply elem_of_sublist; [exact Hy|apply sublist_delete].
  - destruct (pc s) as [|q i [|]|] eqn:Hpc; try discriminate.
    injection Hstep as <-. exact Hfiles.
  - destruct (pc s) as [| |q i] eqn:Hpc; try discriminate.
    injection Hstep as <-. cbn [waitingOf pendingOf todo] in *.
    by apply progress_loopHead.
Qed.

End ProgressFacts.

Section ProgressRun.
Context (host : Host).

Lemma progress_exec (F0 : list FileData) evs s s' :
  NoDup (map id F0) →
  (∀ x, x ∈ todo (pc s) → x ∈ F0 ∧ eligible x) →
  Inv s →
  Forall (λ e, is_Some (schedStep e)) evs →
  exec host evs s = Some s' →
  files s = map (progressOf host (waitingOf (pc s)) (pendingOf (pc s))) F0 →
  files s' = map (progressOf host (waitingOf (pc s')) (pendingOf (pc s'))) F0.
Proof.
  intros Hids. revert s. induction evs as [|e evs IH];
    intros s Hsub HI Hall Hex Hfiles; cbn in Hex.
  - by injection Hex as <-.
  - apply Forall_cons in Hall as [He Hall].
    destruct (step host e s) as [s1|] eqn:Hstep; [|discriminate].
    apply (IH s1); try done.
    + intros x Hx. apply Hsub. eapply (todo_step host e s s1); [|done|done].
      destruct e; try done; by destruct He.
    + by eapply Inv_step.
    + eapply progress_step; try done. apply (inv_todo_ids s HI).
Qed.

End ProgressRun.

(** X13.  What a run makes of the store.  Let a run be started in a reachable
    state and followed through scheduler events only.  Then every item of the
    store at the click that was not IDLE or ERROR is still there unchanged.
    An item that was IDLE or ERROR at the click is, while its batch is not
    started, QUEUED if it was IDLE and unchanged, so still ERROR, if it was
    ERROR; it is PROCESSING while it is in flight, and afterwards as
    [processFile] settles it: COMPLETED with the document that
    [convertImageToPDF] returns for it, or ERROR with the message "Failed to
    convert".  When the run has ended the store is the store at the click
    with every IDLE or ERROR item settled. *)
Theorem run_settles_the_store (host : Host) (evs0 : list Event) (s s1 : App)
    (now : Z) (evs : list Event) (s' : App) :
  exec host evs0 initialApp = Some s →
  step host (ConvertAll now) s = Some s1 →
  Forall (λ e, is_Some (schedStep e)) evs →
  exec host evs s1 = Some s' →
  files s' = map (progressOf host (waitingOf (pc s')) (pendingOf (pc s'))) (files s) ∧
  (pc s' = Stopped → files s' = map (converted host) (files s)) ∧
  (∀ f, f ∈ files s → status f = ERROR → id f ∈ map id (waitingOf (pc s')) →
     f ∈ files s') ∧
  (∀ f, f ∈ files s → status f = IDLE → id f ∈ map id (waitingOf (pc s')) →
     spread f (mkUpdates (Some QUEUED) None None) ∈ files s').
Proof.
  intros Hreach Hstep Hall Hex.
  destruct (reachable_inv host evs0 s Hreach) as [HI _].
  pose proof (Inv_step host _ s s1 HI Hstep) as HI1.
  apply step_ConvertAll in Hstep as [Hpc ->].
  assert (files s' = map (progressOf host (waitingOf (pc s')) (pendingOf (pc s')))
                       (files s)) as Hfiles.
  { apply (progress_exec host (files s) evs (processQueue now s) s'); try done.
    - apply (inv_ids s HI).
    - intros x. unfold processQueue. rewrite loopHead_todo, drop_0.
      intros [? ?]%list_elem_of_filter. done.
    - unfold processQueue. apply progress_loopHead.
      + apply (inv_ids s HI).
      + intros x. rewrite drop_0. intros [? ?]%list_elem_of_filter. done.
      + rewrite drop_0. eapply sublist_NoDup; [apply (inv_ids s HI)|].
        change (map id ?l) with (id <$> l). apply fmap_sublist, sublist_filter.
      + cbn [files]. rewrite drop_0. apply progress_markQueued. }
  split; [exact Hfiles|]. split; [|split].
  - intros Hstop. rewrite Hfiles, Hstop. cbn [waitingOf pendingOf].
    apply map_ext. intros f. unfold progressOf, converted.
    destruct (decide (eligible f)); [|done].
    by rewrite !(decide_False (P := id f ∈ map id [])) by apply not_elem_of_nil.
  - intros f Hf Hst Hw. rewrite Hfiles.
    change (map ?h (files s)) with (h <$> files s). apply list_elem_of_fmap.
    exists f. split; [|done]. unfold progressOf, markQueued.
    rewrite decide_True by (by right). rewrite decide_True by done.
    rewrite decide_False; [done|]. by rewrite Hst.
  - intros f Hf Hst Hw. rewrite Hfiles.
    change (map ?h (files s)) with (h <$> files s). apply list_elem_of_fmap.
    exists f. split; [|done]. unfold progressOf, markQueued.
    rewrite decide_True by (by left). rewrite decide_True by done.
    by rewrite decide_True.
Qed.

Lemma run_settles_the_store_witness :
  exec Sample.host [FilesAdded Sample.twelve] initialApp = Some SampleRuns.loaded ∧
  step Sample.host (ConvertAll 0) SampleRuns.loaded
    = Some (processQueue 0 SampleRuns.loaded) ∧
  exec Sample.host (inOrderSchedule 1 (files SampleRuns.loaded))
    (processQueue 0 SampleRuns.loaded) = Some SampleRuns.finished ∧
  files SampleRuns.finished = map (converted Sample.host) (files SampleRuns.loaded).
Proof.
  assert (exec Sample.host [FilesAdded Sample.twelve] initialApp
          = Some SampleRuns.loaded) as Hreach by reflexivity.
  assert (step Sample.host (ConvertAll 0) SampleRuns.loaded
          = Some (processQueue 0 SampleRuns.loaded)) as Hstep by reflexivity.
  assert (exec Sample.host (inOrderSchedule 1 (files SampleRuns.loaded))
            (processQueue 0 SampleRuns.loaded) = Some SampleRuns.finished) as Hex
    by reflexivity.
  split; [exact Hreach|]. split; [exact Hstep|]. split; [exact Hex|].
  destruct (run_settles_the_store Sample.host [FilesAdded Sample.twelve]
              SampleRuns.loaded (processQueue 0 SampleRuns.loaded) 0
              (inOrderSchedule 1 (files SampleRuns.loaded)) SampleRuns.finished
              Hreach Hstep) as (_ & Hend & _); [|exact Hex|by apply Hend].
  vm_compute. repeat (constructor; [by eexists|]). constructor.
Defined.

(** ** The claims of the mounted application *)

Section UiReach.
Context (host : Host).

Lemma exec_snoc evs e s s1 s2 :
  exec host evs s = Some s1 → step host e s1 = Some s2 →
  exec host (evs ++ [e]) s = Some s2.
Proof. intros H1 H2. rewrite exec_app, H1. cbn. by rewrite H2. Qed.

(** Whatever the mounted application reaches, the model reaches. *)
Lemma ui_reachable uevs s0 s evs0 :
  exec host evs0 initialApp = Some s0 →
  uiExec host uevs s0 = Some s →
  ∃ evs, exec host evs initialApp = Some s.
Proof.
  revert s0 evs0. induction uevs as [|e uevs IH]; intros s0 evs0 H0 Hex; cbn in Hex.
  - injection Hex as <-. eauto.
  - destruct (uiStep host e s0) as [s1|] eqn:Hstep; [|discriminate].
    destruct (uiStep_model host e s0 s1 Hstep) as [->|(e' & Hstep' & _)].
    + by apply (IH s0 evs0).
    + apply (IH s1 (evs0 ++ [e'])); [|done]. by eapply exec_snoc.
Qed.

End UiReach.

(** X14.  Every file in the store of the mounted application has passed
    [isValidFile]: files enter through the drop zone and the file input
    only, and both keep the valid ones. *)
Theorem store_holds_only_accepted_files (host : Host) (uevs : list UiEvent)
    (s : App) (f : FileData) :
  uiExec host uevs initialApp = Some s →
  f ∈ files s →
  isValidFile (file f) = true.
Proof.
  intros Hex Hf.
  destruct (uiInv_exec host uevs initialApp s uiInv_initial Hex) as (_ & _ & Hvalid & _).
  by apply Hvalid.
Qed.

Lemma store_holds_only_accepted_files_witness :
  uiExec Sample.host UiSamples.dropped initialApp = Some UiSamples.afterDrop ∧
  map (λ f, name (file f)) (files UiSamples.afterDrop) = ["photo01.JPG"] ∧
  Forall (λ f, isValidFile (file f) = true) (files UiSamples.afterDrop).
Proof.
  assert (uiExec Sample.host UiSamples.dropped initialApp = Some UiSamples.afterDrop)
    as Hex by reflexivity.
  split; [exact Hex|]. split; [reflexivity|].
  apply Forall_forall. intros f Hf.
  by apply (store_holds_only_accepted_files Sample.host _ _ f Hex).
Defined.

(** X15.  While [isProcessing] holds, nothing but the scheduler changes the
    state of the mounted application: a drop is ignored, and the file input,
    the remove buttons, the convert button and the clear button are not
    there. *)
Theorem ui_frozen_during_run (host : Host) (e : UiEvent) (s s' : App) :
  isProcessing s = true →
  uiStep host e s = Some s' →
  s' = s ∨ ∃ a, e = Async a ∧ is_Some (schedStep a) ∧ step host a s = Some s'.
Proof.
  intros Hb Hstep.
  destruct (uiStep_model host e s s' Hstep) as [->|(e' & Hstep' & _ & Hrun)];
    [by left|].
  right. destruct (Hrun Hb) as [a ->]. exists a. split; [done|].
  cbn in Hstep. destruct (schedStep a); [|discriminate]. split; [by eexists|done].
Qed.

Lemma ui_frozen_during_run_witness :
  isProcessing UiSamples.beforeEnd = true ∧
  uiStep Sample.host (DropFiles [UiSamples.photo] [("id-02", "blob:jpeg-02")])
    UiSamples.beforeEnd = Some UiSamples.beforeEnd ∧
  uiStep Sample.host (ClickRemove "id-01") UiSamples.beforeEnd = None.
Proof.
  split; [reflexivity|]. split; [|reflexivity].
  assert (uiStep Sample.host (DropFiles [UiSamples.photo] [("id-02", "blob:jpeg-02")])
            UiSamples.beforeEnd = Some UiSamples.beforeEnd) as Hstep by reflexivity.
  destruct (ui_frozen_during_run Sample.host _ UiSamples.beforeEnd _ eq_refl Hstep)
    as [_|(a & Ha & _)]; [exact Hstep|discriminate].
Defined.

(** X16.  When a run of the mounted application ends, every item of the
    store is COMPLETED or ERROR; the convert button is shown again exactly
    when some item is ERROR. *)
Theorem ui_run_settles_every_item (host : Host) (uevs : list UiEvent)
    (s : App) (e : UiEvent) (s' : App) :
  uiExec host uevs initialApp = Some s →
  isProcessing s = true →
  uiStep host e s = Some s' →
  isProcessing s' = false →
  (∀ f, f ∈ files s' → status f = COMPLETED ∨ status f = ERROR) ∧
  (convertShown s' = true ↔ ∃ f, f ∈ files s' ∧ status f = ERROR).
Proof.
  intros Hex Hb Hstep Hb'.
  pose proof (uiInv_exec host uevs initialApp s uiInv_initial Hex) as (_ & _ & _ & Hidle).
  destruct (ui_reachable host (uevs ++ [e]) initialApp s' [] eq_refl) as [evs Hreach].
  { clear -Hex Hstep. revert Hex. generalize initialApp.
    induction uevs as [|u uevs IH]; intros s0 Hex; cbn in *.
    - injection Hex as ->. by rewrite Hstep.
    - destruct (uiStep host u s0); [by apply IH|discriminate]. }
  assert (∀ f, f ∈ files s' → status f = COMPLETED ∨ status f = ERROR) as Hall.
  { intros f Hf.
    destruct (no_item_in_flight_when_stopped host evs s' f Hreach Hb' Hf)
      as [Hst|[?|?]]; [|by left|by right].
    exfalso.
    destruct (ui_frozen_during_run host e s s' Hb Hstep) as [->|(a & -> & Ha & Hstep')];
      [congruence|].
    destruct (step_no_new_idle host a s s' f Hstep') as (x & Hx & Hxs & _); try done.
    { intros new ->. by destruct Ha. }
    by apply (Hidle Hb x). }
  split; [exact Hall|].
  destruct (convert_shown_iff_work host evs s' Hreach) as [Hiff _].
  rewrite Hiff. split.
  - intros [_ Hne]. destruct (filter eligible (files s')) as [|f l] eqn:Hq; [done|].
    assert (f ∈ filter eligible (files s')) as [Hel Hf]%list_elem_of_filter
      by (rewrite Hq; apply list_elem_of_here).
    exists f. split; [done|]. destruct Hel as [Hi|?]; [|done].
    destruct (Hall f Hf); congruence.
  - intros (f & Hf & Hst). split; [done|]. intros Hnil.
    assert (f ∈ filter eligible (files s')) as Hin
      by (apply list_elem_of_filter; split; [by right|done]).
    rewrite Hnil in Hin. by apply elem_of_nil in Hin.
Qed.

Lemma ui_run_settles_every_item_witness :
  uiExec Sample.host UiSamples.running initialApp = Some UiSamples.beforeEnd ∧
  uiStep Sample.host (Async (TimerFired 1)) UiSamples.beforeEnd = Some UiSamples.atEnd ∧
  map status (files UiSamples.atEnd) = [COMPLETED] ∧
  Forall (λ f, status f = COMPLETED ∨ status f = ERROR) (files UiSamples.atEnd).
Proof.
  assert (uiExec Sample.host UiSamples.running initialApp = Some UiSamples.beforeEnd)
    as Hex by reflexivity.
  assert (uiStep Sample.host (Async (TimerFired 1)) UiSamples.beforeEnd
          = Some UiSamples.atEnd) as Hstep by reflexivity.
  split; [exact Hex|]. split; [exact Hstep|]. split; [reflexivity|].
  apply Forall_forall.
  by apply (ui_run_settles_every_item Sample.host UiSamples.running UiSamples.beforeEnd
              (Async (TimerFired 1)) UiSamples.atEnd Hex eq_refl Hstep eq_refl).
Defined.
